(** * Tabular TD(0) learner for Tic-Tac-Toe: model and verified properties

    The development embeds [tictactoe.py] (the rule engine) and
    [reinforcement-learning.py] (the value table and the agent).

    Conventions of the embedding:
    - Python integers are [Z]; the 3x3 numpy board is a [list (list Z)]
      read with total list lookup at indices the code has range-checked.
    - A [TicTacToe] object is a record; methods that mutate [self] return
      the new object next to their Python return value.
    - The dictionary [ValueFunction.value] is a [gmap] keyed by what
      [__hash__]/[__eq__] compare, i.e. the flattened grid.
    - Table values, rates and random draws are rationals [Q], the
      numbers the binary64 values of the code stand for.  Comparisons
      are exact.  Every result of [+], [-] and [*] passes through a
      rounding function [fl], a parameter of the development: binary64
      round-to-nearest is one such function, [no_rounding] another.
    - Exceptions are explicit: stateful operations return an outcome
      together with the state they leave behind. *)

From Stdlib Require Import ZArith QArith Lia Lqa.
From stdpp Require Import gmap list.

Open Scope Z_scope.

(** ** tictactoe.py *)

Inductive Player := X | O | EMPTY.

#[global] Instance Player_eq_dec : EqDecision Player.
Proof. solve_decision. Defined.

(** [Player.value] of the enumeration. *)
Definition Player_value (p : Player) : Z :=
  match p with X => 1 | O => -1 | EMPTY => 0 end.

Record TicTacToe := mkTicTacToe {
  board : list (list Z);
  current_player : Player;
  game_over : bool;
  winner : option Player;
  move_history : list (Z * Z * Player)
}.

(** [TicTacToe.__init__] *)
Definition new_game : TicTacToe :=
  {| board := replicate 3 (replicate 3 0);
     current_player := X;
     game_over := false;
     winner := None;
     move_history := [] |}.

(** [self.board[row, col]] *)
Definition cell (b : list (list Z)) (row col : Z) : Z :=
  (b !!! Z.to_nat row) !!! Z.to_nat col.

(** [self.board[row, col] = v] *)
Definition set_cell (b : list (list Z)) (row col v : Z) : list (list Z) :=
  <[Z.to_nat row := <[Z.to_nat col := v]> (b !!! Z.to_nat row)]> b.

Definition sumZ (l : list Z) : Z := foldr Z.add 0 l.

(** [self.board[row].sum()] *)
Definition row_sum (b : list (list Z)) (row : Z) : Z :=
  sumZ (b !!! Z.to_nat row).

(** [self.board[:, col].sum()] *)
Definition col_sum (b : list (list Z)) (col : Z) : Z :=
  sumZ ((λ r : list Z, r !!! Z.to_nat col) <$> b).

(** [np.trace(self.board)] *)
Definition trace (b : list (list Z)) : Z :=
  sumZ (imap (λ i (r : list Z), r !!! i) b).

(** [get_valid_moves]: the two nested [range(3)] loops. *)
Definition get_valid_moves (g : TicTacToe) : list (Z * Z) :=
  row ← seqZ 0 3;
  col ← seqZ 0 3;
  if decide (cell (board g) row col = Player_value EMPTY)
  then [(row, col)] else [].

(** [is_valid_move] *)
Definition is_valid_move (g : TicTacToe) (row col : Z) : bool :=
  if game_over g then false
  else if negb (bool_decide (0 ≤ row < 3 ∧ 0 ≤ col < 3)) then false
  else bool_decide (cell (board g) row col = Player_value EMPTY).

(** The assignment pair [self.game_over = True; self.winner = w]. *)
Definition finish (g : TicTacToe) (w : option Player) : TicTacToe :=
  {| board := board g;
     current_player := current_player g;
     game_over := true;
     winner := w;
     move_history := move_history g |}.

(** [return 1 if self.winner == Player.X else -1] *)
Definition reward_of (w : Player) : Z :=
  if decide (w = X) then 1 else -1.

(** [_check_game_over]: rows, columns, main diagonal, anti-diagonal, draw;
    the first test that fires returns. *)
Definition _check_game_over (g : TicTacToe) : option Z * TicTacToe :=
  let b := board g in
  match find (λ row, bool_decide (Z.abs (row_sum b row) = 3)) (seqZ 0 3) with
  | Some row =>
      let w := if decide (cell b row 0 = 1) then X else O in
      (Some (reward_of w), finish g (Some w))
  | None =>
  match find (λ col, bool_decide (Z.abs (col_sum b col) = 3)) (seqZ 0 3) with
  | Some col =>
      let w := if decide (cell b 0 col = 1) then X else O in
      (Some (reward_of w), finish g (Some w))
  | None =>
  let main_diag_sum := trace b in
  if decide (Z.abs main_diag_sum = 3) then
    let w := if decide (main_diag_sum = 3) then X else O in
    (Some (reward_of w), finish g (Some w))
  else
  let anti_diag_sum := cell b 0 2 + cell b 1 1 + cell b 2 0 in
  if decide (Z.abs anti_diag_sum = 3) then
    let w := if decide (anti_diag_sum = 3) then X else O in
    (Some (reward_of w), finish g (Some w))
  else
  if decide (length (get_valid_moves g) = 0%nat) then
    (Some 0, finish g None)
  else (None, g)
  end end.

(** [make_move]: returns [(success, reward)] and the object afterwards. *)
Definition make_move (g : TicTacToe) (row col : Z)
  : (bool * option Z) * TicTacToe :=
  if negb (is_valid_move g row col) then ((false, None), g)
  else
    let g1 :=
      {| board := set_cell (board g) row col (Player_value (current_player g));
         current_player := current_player g;
         game_over := game_over g;
         winner := winner g;
         move_history := move_history g ++ [(row, col, current_player g)] |} in
    let '(reward, g2) := _check_game_over g1 in
    let g3 :=
      if negb (game_over g2) then
        {| board := board g2;
           current_player :=
             if decide (current_player g2 = X) then O else X;
           game_over := game_over g2;
           winner := winner g2;
           move_history := move_history g2 |}
      else g2 in
    ((true, reward), g3).

(** [get_winner], [is_game_over] *)
Definition get_winner (g : TicTacToe) : option Player := winner g.

(** [get_state_hash]: the flattened grid; [__hash__] and [__eq__] see
    nothing else of the object. *)
Definition get_state_hash (g : TicTacToe) : list Z := concat (board g).

(** [copy] *)
Definition copy (g : TicTacToe) : TicTacToe :=
  {| board := board g;
     current_player := current_player g;
     game_over := game_over g;
     winner := winner g;
     move_history := move_history g |}.

(** The object after a move, dropping the returned pair. *)
Definition play (g : TicTacToe) (mv : Z * Z) : TicTacToe :=
  (make_move g mv.1 mv.2).2.

(** ** Exceptions and stateful operations *)

Inductive exn := KeyError | TypeError | ValueError.

Inductive outcome (A : Type) :=
  | Ok (a : A)
  | Raise (e : exn)
  | OutOfFuel.
Arguments Ok {A} a.
Arguments Raise {A} e.
Arguments OutOfFuel {A}.

(** A method acting on a state [S]: it yields an outcome and the state it
    leaves behind, also when it raises. *)
Definition M (S A : Type) : Type := S → outcome A * S.

#[global] Instance M_ret {S} : MRet (M S) := λ A a s, (Ok a, s).

#[global] Instance M_bind {S} : MBind (M S) := λ A B f m s,
  match m s with
  | (Ok a, s') => f a s'
  | (Raise e, s') => (Raise e, s')
  | (OutOfFuel, s') => (OutOfFuel, s')
  end.

Definition raise {S A} (e : exn) : M S A := λ s, (Raise e, s).
Definition get_st {S} : M S S := λ s, (Ok s, s).
Definition put_st {S} (s : S) : M S unit := λ _, (Ok tt, s).

(** ** reinforcement-learning.py: [ValueFunction] *)

(** The table [self.value]. *)
Abbreviation Table := (gmap (list Z) Q).

(** [self.value[state]] read: [KeyError] when the key is absent. *)
Definition dict_get (state : TicTacToe) : M Table Q := λ value,
  match value !! get_state_hash state with
  | Some v => (Ok v, value)
  | None => (Raise KeyError, value)
  end.

(** [self.value[state] = v] *)
Definition dict_set (state : TicTacToe) (v : Q) : M Table unit := λ value,
  (Ok tt, <[get_state_hash state := v]> value).

(** [get_value] *)
Definition get_value (state : TicTacToe) : M Table Q := dict_get state.

(** What a floating-point operation makes of its exact result. *)
Record Rounding := mkRounding { round :> Q → Q }.

(** Exact arithmetic: no result is rounded. *)
Definition no_rounding : Rounding := mkRounding (λ q, q).

Section Rounding.

(** The rounding of the arithmetic the code runs on. *)
Variable fl : Rounding.

Set Default Proof Using "Type".

(** [update_value]: the right-hand side is evaluated left to right, each
    operation rounding its result, then the single store happens. *)
Definition update_value (state state_prime : TicTacToe) (alpha : Q)
  : M Table unit :=
  v0 ← dict_get state;
  v1 ← dict_get state_prime;
  v2 ← dict_get state;
  dict_set state (fl (v0 + fl (alpha * fl (v1 - v2))))%Q.

(** A Python [set] of [TicTacToe] objects: no two members with the same
    grid; [add] keeps the member already there. *)
Definition set_add (x : TicTacToe) (s : list TicTacToe) : list TicTacToe :=
  if bool_decide (get_state_hash x ∈ get_state_hash <$> s) then s
  else s ++ [x].

(** [set.pop()] removes an arbitrary member; [i] selects which one. *)
Definition set_pop (i : nat) (s : list TicTacToe)
  : option (TicTacToe * list TicTacToe) :=
  let j := (i mod length s)%nat in
  x ← s !! j; Some (x, delete j s).

(** The [match state.get_winner()] of the constructor. *)
Definition initial_value (w : option Player) : option Q :=
  match w with
  | None => Some 0%Q
  | Some X => Some 1%Q
  | Some O => Some (-1)%Q
  | Some EMPTY => None
  end.

(** The [for valid_move in valid_moves] loop of the constructor. *)
Definition expand (state : TicTacToe) (open_states : list TicTacToe)
  : list TicTacToe :=
  foldl (λ acc mv, set_add (play (copy state) mv) acc)
        open_states (get_valid_moves state).

(** The [while len(open_states) > 0] loop.  [pick n] is the member the
    [n]-th [pop] removes, so every order Python may use is covered. *)
Fixpoint init_loop (pick : nat → nat) (fuel n : nat)
    (open_states : list TicTacToe) (value : Table) : outcome Table :=
  match fuel with
  | 0%nat => OutOfFuel
  | S fuel =>
      match set_pop (pick n) open_states with
      | None => Ok value
      | Some (state, open_states) =>
          if decide (is_Some (value !! get_state_hash state)) then
            init_loop pick fuel (S n) open_states value
          else
            match initial_value (get_winner state) with
            | None => Raise TypeError
            | Some v =>
                init_loop pick fuel (S n)
                  (expand state open_states)
                  (<[get_state_hash state := v]> value)
            end
      end
  end.

(** [ValueFunction.__init__] *)
Definition ValueFunction_init (pick : nat → nat) (fuel : nat)
  : outcome Table :=
  init_loop pick fuel 0%nat (set_add new_game []) ∅.

(** ** reinforcement-learning.py: [Agent] *)

#[global] Instance Player_countable : Countable Player.
Proof.
  refine (inj_countable'
    (λ p, match p with X => 0%nat | O => 1%nat | EMPTY => 2%nat end)
    (λ n, match n with 0%nat => X | 1%nat => O | _ => EMPTY end) _).
  by intros [].
Defined.

Record Agent := mkAgent {
  value_function : Table;
  exploration : Q;
  exploration_decay : Q;
  previous_state : gmap Player TicTacToe;
  alpha : Q
}.

(** [Agent.__init__], given the table its [ValueFunction()] call built. *)
Definition Agent_init (value : Table) (exploration exploration_decay : Q)
  : Agent :=
  {| value_function := value;
     exploration := exploration;
     exploration_decay := exploration_decay;
     previous_state := <[X := new_game]> (<[O := new_game]> ∅);
     alpha := (1 # 10)%Q |}.

(** Run a [ValueFunction] method on [self.value_function]. *)
Definition on_table {A} (m : M Table A) : M Agent A := λ self,
  let '(r, value) := m (value_function self) in
  (r, {| value_function := value;
         exploration := exploration self;
         exploration_decay := exploration_decay self;
         previous_state := previous_state self;
         alpha := alpha self |}).

(** [best_value = -1 if player == Player.X else 1] *)
Definition best_init (player : Player) : Q :=
  if decide (player = X) then (-1)%Q else 1%Q.

(** One iteration of the [for valid_move in valid_moves] loop of
    [get_move]. *)
Definition best_step (game : TicTacToe) (player : Player)
    (acc : option (Z * Z) * Q) (valid_move : Z * Z)
  : M Table (option (Z * Z) * Q) :=
  let hypothetical_game := play (copy game) valid_move in
  value ← get_value hypothetical_game;
  if decide (player = X) then
    if Qlt_le_dec acc.2 value then mret (Some valid_move, value)
    else mret acc
  else
    if Qlt_le_dec value acc.2 then mret (Some valid_move, value)
    else mret acc.

Fixpoint best_loop (game : TicTacToe) (player : Player)
    (valid_moves : list (Z * Z)) (acc : option (Z * Z) * Q)
  : M Table (option (Z * Z) * Q) :=
  match valid_moves with
  | [] => mret acc
  | valid_move :: valid_moves =>
      acc ← best_step game player acc valid_move;
      best_loop game player valid_moves acc
  end.

(** [self.exploration *= self.exploration_decay] *)
Definition decay_exploration : M Agent unit := λ self,
  (Ok tt, {| value_function := value_function self;
             exploration := (fl (exploration self * exploration_decay self))%Q;
             exploration_decay := exploration_decay self;
             previous_state := previous_state self;
             alpha := alpha self |}).

(** [self.previous_state[player] = new_game] *)
Definition set_previous_state (player : Player) (new_game : TicTacToe)
  : M Agent unit := λ self,
  (Ok tt, {| value_function := value_function self;
             exploration := exploration self;
             exploration_decay := exploration_decay self;
             previous_state := <[player := new_game]> (previous_state self);
             alpha := alpha self |}).

(** [self.previous_state[player]] read. *)
Definition get_previous_state (player : Player) : M Agent TicTacToe :=
  λ self,
  match previous_state self !! player with
  | Some g => (Ok g, self)
  | None => (Raise KeyError, self)
  end.

(** [chosen_move[0]], [chosen_move[1]]: subscripting [None] raises. *)
Definition subscript (chosen_move : option (Z * Z)) : M Agent (Z * Z) :=
  match chosen_move with
  | Some mv => mret mv
  | None => raise TypeError
  end.

(** [get_move].  [rnd] is the draw of [random.random()] and [rnd_index]
    drives [random.randrange(0, len(valid_moves))]. *)
Definition get_move (game : TicTacToe) (player : Player)
    (rnd : Q) (rnd_index : nat) : M Agent (Z * Z) :=
  let valid_moves := get_valid_moves game in
  best ← on_table (best_loop game player valid_moves (None, best_init player));
  let best_move := best.1 in
  self ← get_st;
  chosen_move ←
    (if Qlt_le_dec rnd (exploration self) then
       if decide (length valid_moves = 0%nat) then raise ValueError
       else mret (valid_moves !! (rnd_index mod length valid_moves)%nat)
     else mret best_move);
  decay_exploration;;
  let new_game := copy game in
  mv ← subscript chosen_move;
  let new_game := play new_game mv in
  prev ← get_previous_state player;
  self ← get_st;
  on_table (update_value prev new_game (alpha self));;
  set_previous_state player new_game;;
  mret mv.

(** [lost_game] *)
Definition lost_game (game : TicTacToe) (player : Player) : M Agent unit :=
  prev ← get_previous_state player;
  self ← get_st;
  on_table (update_value prev game (alpha self)).

(** ** Notions the statements use *)

(** The nine coordinates in row-major order. *)
Definition all_cells : list (Z * Z) :=
  [(0,0); (0,1); (0,2); (1,0); (1,1); (1,2); (2,0); (2,1); (2,2)].

(** No empty cell is left. *)
Definition board_full (b : list (list Z)) : Prop :=
  ∀ row col, 0 ≤ row < 3 → 0 ≤ col < 3 → cell b row col ≠ 0.


(** The game of the end-to-end scenario: X completes the top row on the
    fifth move, four cells remain empty. *)
Definition x_wins_early : TicTacToe :=
  foldl play new_game [(0,0); (1,1); (0,1); (2,2); (0,2)].


(** A two-entry table: the empty board at 0, a board won by X at 1. *)
Definition two_entries : Table :=
  <[get_state_hash new_game := 0%Q]>
    (<[get_state_hash x_wins_early := 1%Q]> ∅).

(** [a] is a strict improvement on [b] for the role: larger for X,
    smaller otherwise. *)
Definition improves (player : Player) (a b : Q) : Prop :=
  if decide (player = X) then (b < a)%Q else (a < b)%Q.

#[global] Instance improves_dec player a b : Decision (improves player a b).
Proof.
  unfold improves. destruct (decide (player = X)).
  - destruct (Qlt_le_dec b a); [by left|right; by apply Qle_not_lt].
  - destruct (Qlt_le_dec a b); [by left|right; by apply Qle_not_lt].
Defined.

(** The table value of the state a move leads to, as [get_move] reads it. *)
Definition successor_value (value : Table) (game : TicTacToe)
    (mv : Z * Z) : option Q :=
  value !! get_state_hash (play (copy game) mv).

(** What the selection loop has done to its accumulator after running
    over [ms]: nothing in [ms] improves on the final value, the final
    value is no worse than the initial one, and either the accumulator is
    untouched or it holds the move at some position [i] whose value
    improves on the initial value and on every earlier move's value. *)
Definition selection (player : Player) (val : Z * Z → Q)
    (ms : list (Z * Z)) (acc acc' : option (Z * Z) * Q) : Prop :=
  (∀ m, m ∈ ms → ¬ improves player (val m) acc'.2) ∧
  ¬ improves player acc.2 acc'.2 ∧
  (acc' = acc ∨
   ∃ i m, ms !! i = Some m ∧ acc' = (Some m, val m) ∧
     improves player (val m) acc.2 ∧
     ∀ j m', (j < i)%nat → ms !! j = Some m' →
       improves player (val m) (val m')).

(** The agent once [self.exploration *= self.exploration_decay] has run. *)
Definition decayed (self : Agent) : Agent :=
  {| value_function := value_function self;
     exploration := (fl (exploration self * exploration_decay self))%Q;
     exploration_decay := exploration_decay self;
     previous_state := previous_state self;
     alpha := alpha self |}.

(** What [get_move] does after the selection loop when it exploits. *)
Definition after_choice (game : TicTacToe) (player : Player)
    (chosen_move : option (Z * Z)) : M Agent (Z * Z) :=
  mv ← subscript chosen_move;
  prev ← get_previous_state player;
  self ← get_st;
  on_table (update_value prev (play (copy game) mv) (alpha self));;
  set_previous_state player (play (copy game) mv);;
  mret mv.

(** A game with a single empty cell, (2,2), X to move, nobody has a line:
      X O X
      X O O
      O X .   *)
Definition one_move_left : TicTacToe :=
  foldl play new_game
    [(0,0); (0,1); (0,2); (1,1); (1,0); (1,2); (2,1); (2,0)].

(** An agent that never explores and whose table holds the one successor
    of [one_move_left] with value [v]. *)
Definition greedy_agent (v : Q) : Agent :=
  Agent_init {[ get_state_hash (play (copy one_move_left) (2,2)) := v ]}
    0 (99 # 100).

(** A game with the bottom row empty, X to move, nobody has a line:
      X O X
      X O O
      . . .   *)
Definition three_moves_left : TicTacToe :=
  foldl play new_game [(0,0); (0,1); (0,2); (1,1); (1,0); (1,2)].

(** An agent with exploration rate [e] whose table holds the empty board
    at 0 and the three successors of [three_moves_left]: (2,0) at 0,
    (2,1) and (2,2) both at 1/2. *)
Definition tied_agent (e : Q) : Agent :=
  Agent_init
    (<[get_state_hash new_game := 0%Q]>
       (<[get_state_hash (play (copy three_moves_left) (2,0)) := 0%Q]>
          (<[get_state_hash (play (copy three_moves_left) (2,1)) := (1 # 2)%Q]>
             {[ get_state_hash (play (copy three_moves_left) (2,2))
                := (1 # 2)%Q ]})))
    e (99 # 100).


(** ** Boards that legal play produces *)

(** A board written out cell by cell. *)
Definition B9 (a0 a1 a2 a3 a4 a5 a6 a7 a8 : Z) : list (list Z) :=
  [[a0; a1; a2]; [a3; a4; a5]; [a6; a7; a8]].

(** Three rows of three cells, every cell one of -1, 0, 1. *)
Definition wf_board (b : list (list Z)) : Prop :=
  length b = 3%nat ∧
  Forall (λ r, length r = 3%nat ∧ Forall (λ a, -1 ≤ a ≤ 1) r) b.

(** The eight lines of the board. *)
Definition lines : list (list (Z * Z)) :=
  [ [(0,0); (0,1); (0,2)]; [(1,0); (1,1); (1,2)]; [(2,0); (2,1); (2,2)];
    [(0,0); (1,0); (2,0)]; [(0,1); (1,1); (2,1)]; [(0,2); (1,2); (2,2)];
    [(0,0); (1,1); (2,2)]; [(0,2); (1,1); (2,0)] ].

(** Some line carries the mark [v] in all three cells. *)
Definition has_line (b : list (list Z)) (v : Z) : Prop :=
  Exists (Forall (λ rc, cell b rc.1 rc.2 = v)) lines.

(** Three-in-a-row for either mark, or no empty cell left. *)
Definition terminal_board (b : list (list Z)) : Prop :=
  has_line b 1 ∨ has_line b (-1) ∨ board_full b.

(** Marks of X minus marks of O. *)
Definition total (b : list (list Z)) : Z := sumZ (concat b).

(** The goal is a disjunction over the eight lines and the test of one
    of them has fired: drop the tests that did not, find the disjunct. *)
Ltac fired_line :=
  repeat match goal with H : Z.abs _ ≠ 3 |- _ => clear H end;
  repeat match goal with H : _ ↔ _ |- _ => clear H end;
  solve [ repeat (first [ solve [left; lia] | right ]); lia ].

(** The goal denies a disjunction over the eight lines and no test has
    fired: each disjunct contradicts the test of its own line. *)
Ltac no_line :=
  let Hl := fresh in
  intros Hl; decompose [or and] Hl; subst;
  match goal with
  | H : Z.abs _ ≠ 3 |- _ => solve [exfalso; apply H; reflexivity]
  end.

(** Games reachable from the empty board by legal moves. *)
Inductive reachable : TicTacToe → Prop :=
  | reachable_new : reachable new_game
  | reachable_move g row col :
      reachable g → is_valid_move g row col = true →
      reachable (make_move g row col).2.

(** What legal play guarantees of a grid: X is level with O or one mark
    ahead, a line of X means X moved last, a line of O means O did. *)
Definition legal_board (b : list (list Z)) : Prop :=
  wf_board b ∧
  (total b = 0 ∨ total b = 1) ∧
  (has_line b 1 → total b = 1) ∧
  (has_line b (-1) → total b = 0).

(** The mark the mover places on a grid that is not terminal. *)
Definition mover (b : list (list Z)) : Player :=
  if decide (total b = 0) then X else O.

(** The flags of an object agree with its grid. *)
Definition consistent (g : TicTacToe) : Prop :=
  legal_board (board g) ∧
  (game_over g = true ↔ terminal_board (board g)) ∧
  (winner g = Some X ↔ has_line (board g) 1) ∧
  (winner g = Some O ↔ has_line (board g) (-1)) ∧
  winner g ≠ Some EMPTY ∧
  (game_over g = false → current_player g = mover (board g)).

(** [Hl] holds one of the eight lines of the grid after a move and the
    goal is the same disjunction for the grid before it: a line through
    the new mark asks for an absurd equation, any other line is there
    already. *)
Ltac old_line Hl :=
  first [ solve [destruct Hl as (? & ? & ?); discriminate]
        | solve [repeat (first [ solve [left; exact Hl] | right ]);
                 exact Hl] ].
Ltac line_cases Hl :=
  destruct Hl as [Hl|[Hl|[Hl|[Hl|[Hl|[Hl|[Hl|Hl]]]]]]]; old_line Hl.

(** ** Construction of the table *)

(** Grids that legal play reaches, as table keys. *)
Definition reachable_board (k : list Z) : Prop :=
  ∃ g, reachable g ∧ get_state_hash g = k.

(** All keys of length [n] over the three cell values. *)
Fixpoint all_keys (n : nat) : list (list Z) :=
  match n with
  | 0%nat => [[]]
  | S n => k ← all_keys n; [(-1) :: k; 0 :: k; 1 :: k]
  end.

Definition universe : gset (list Z) := list_to_set (all_keys 9).

(** Iterations that always suffice for the constructor's loop. *)
Definition init_fuel : nat := (2 + 10 * 3 ^ 9)%nat.

(** *** The loop invariant *)

(** The key is in the table already or waits in the frontier. *)
Definition pending (open_states : list TicTacToe) (value : Table)
    (k : list Z) : Prop :=
  is_Some (value !! k) ∨ k ∈ get_state_hash <$> open_states.

(** Every entry was written for a reachable object, from its winner. *)
Definition entries_sound (value : Table) : Prop :=
  ∀ k v, value !! k = Some v →
    ∃ g, reachable g ∧ get_state_hash g = k ∧
         initial_value (winner g) = Some v.

Definition loop_inv (open_states : list TicTacToe) (value : Table) : Prop :=
  Forall reachable open_states ∧
  entries_sound value ∧
  (∀ g mv, reachable g → is_Some (value !! get_state_hash g) →
     mv ∈ get_valid_moves g →
     pending open_states value (get_state_hash (play g mv))) ∧
  pending open_states value (get_state_hash new_game).

(** *** Termination *)

(** Each iteration either shrinks the frontier or adds one key of the
    finite universe and at most nine members to the frontier. *)
Definition loop_measure (open_states : list TicTacToe) (value : Table)
  : nat :=
  (length open_states + 10 * size (universe ∖ dom value))%nat.

(** *** The table during its lifetime *)

(** The calls a client makes on the table. *)
Inductive table_call :=
  | call_update (state state_prime : TicTacToe) (alpha : Q)
  | call_get (state : TicTacToe).

(** The table after one call, whether it returned or raised. *)
Definition run_call (c : table_call) (value : Table) : Table :=
  match c with
  | call_update state state_prime alpha =>
      (update_value state state_prime alpha value).2
  | call_get state => (get_value state value).2
  end.

Definition run_calls (calls : list table_call) (value : Table) : Table :=
  foldl (λ value c, run_call c value) value calls.

(** The usage C4 assumes: no update has a terminal grid as predecessor. *)
Definition proper_call (c : table_call) : Prop :=
  match c with
  | call_update state _ _ =>
      wf_board (board state) ∧ ¬ terminal_board (board state)
  | call_get _ => True
  end.

(** ** Further code of the two files *)

(** [__eq__] (and [__hash__]): objects are compared by their flattened
    grid alone. *)
Definition TicTacToe_eq (g1 g2 : TicTacToe) : bool :=
  bool_decide (get_state_hash g1 = get_state_hash g2).


(** [get_state]: a copy of the board. *)
Definition get_state (g : TicTacToe) : list (list Z) := board g.

(** [reset]: returns the initial board and leaves the initial object. *)
Definition reset (g : TicTacToe) : list (list Z) * TicTacToe :=
  (get_state new_game, new_game).

(** The other role, as [make_move] switches it. *)
Definition other_player (p : Player) : Player :=
  if decide (p = X) then O else X.

(** [self] with another table. *)
Definition with_table (self : Agent) (value : Table) : Agent :=
  {| value_function := value;
     exploration := exploration self;
     exploration_decay := exploration_decay self;
     previous_state := previous_state self;
     alpha := alpha self |}.

(** An agent that does not explore, for a game with one move left: its
    table holds the empty board and the one successor of
    [one_move_left], both at 0. *)
Definition small_agent : Agent :=
  Agent_init
    (<[get_state_hash new_game := 0%Q]>
       {[ get_state_hash (play (copy one_move_left) (2,2)) := 0%Q ]})
    0 (99 # 100).

(** The table has an entry for exactly the reachable grids. *)
Definition table_complete (value : Table) : Prop :=
  ∀ k, is_Some (value !! k) ↔ reachable_board k.

(** The agent's table is complete and both roles have a cursor that is a
    reachable game. *)
Definition agent_ok (self : Agent) : Prop :=
  table_complete (value_function self) ∧
  ∀ p, p = X ∨ p = O →
    ∃ g, previous_state self !! p = Some g ∧ reachable g.






(** * Verified properties *)

(** ** The rule engine *)

Example scenario_x_wins :
  game_over x_wins_early = true ∧ winner x_wins_early = Some X ∧
  get_valid_moves x_wins_early = [(1,0); (1,2); (2,0); (2,1)].
Proof. vm_compute. done. Qed.

Lemma get_valid_moves_filter g :
  get_valid_moves g =
  filter (λ rc, cell (board g) rc.1 rc.2 = 0) all_cells.
Proof.
  unfold get_valid_moves, all_cells.
  change (seqZ 0 3) with [0; 1; 2].
  cbn [mbind list_bind app]. rewrite !app_nil_r.
  change (Player_value EMPTY) with 0.
  rewrite <- !app_assoc.
  repeat match goal with
  | |- context [filter _ (?x :: _)] => rewrite (filter_cons _ x)
  end.
  rewrite filter_nil. cbn [fst snd].
  repeat case_decide; reflexivity.
Qed.

Lemma elem_of_all_cells row col :
  (row, col) ∈ all_cells ↔ 0 ≤ row < 3 ∧ 0 ≤ col < 3.
Proof.
  unfold all_cells. rewrite !elem_of_cons, elem_of_nil.
  split.
  - intros H. repeat destruct H as [H|H]; try done; inversion H; lia.
  - intros [Hr Hc].
    assert (row = 0 ∨ row = 1 ∨ row = 2) as Hr' by lia.
    assert (col = 0 ∨ col = 1 ∨ col = 2) as Hc' by lia.
    destruct Hr' as [Hr'|[Hr'|Hr']]; destruct Hc' as [Hc'|[Hc'|Hc']];
      subst row col; tauto.
Qed.

Lemma elem_of_get_valid_moves g row col :
  (row, col) ∈ get_valid_moves g ↔
  0 ≤ row < 3 ∧ 0 ≤ col < 3 ∧ cell (board g) row col = 0.
Proof.
  rewrite get_valid_moves_filter, list_elem_of_filter, elem_of_all_cells.
  cbn. tauto.
Qed.

Lemma get_valid_moves_nil g :
  get_valid_moves g = [] ↔ board_full (board g).
Proof.
  split.
  - intros Hnil row col Hr Hc Hz.
    assert ((row, col) ∈ get_valid_moves g) as Hin
      by (apply elem_of_get_valid_moves; done).
    rewrite Hnil in Hin. by apply elem_of_nil in Hin.
  - intros Hfull. destruct (get_valid_moves g) as [|[row col] l] eqn:E; [done|].
    assert ((row, col) ∈ get_valid_moves g) as Hin
      by (rewrite E; left).
    apply elem_of_get_valid_moves in Hin as (Hr & Hc & Hz).
    by destruct (Hfull row col).
Qed.

(** C5 as stated fails: after X has won with four cells still empty the
    game is terminal, yet the enumeration is not empty. *)
Lemma get_valid_moves_terminal_nonempty :
  ¬ (get_valid_moves x_wins_early = [] ↔
     board_full (board x_wins_early) ∨ game_over x_wins_early = true).
Proof.
  intros [_ H].
  assert (get_valid_moves x_wins_early = []) as Hnil
    by (apply H; right; vm_compute; reflexivity).
  vm_compute in Hnil. discriminate.
Qed.

(** C5 (amended): [get_valid_moves] returns the empty cells, one pair per
    empty cell, in row-major order, and the result is empty exactly when
    no cell is empty; the game-over flag plays no part. *)
Theorem get_valid_moves_row_major g :
  get_valid_moves g =
    filter (λ rc, cell (board g) rc.1 rc.2 = 0) all_cells ∧
  (∀ row col, (row, col) ∈ get_valid_moves g ↔
     0 ≤ row < 3 ∧ 0 ≤ col < 3 ∧ cell (board g) row col = 0) ∧
  (get_valid_moves g = [] ↔ board_full (board g)).
Proof.
  split; [apply get_valid_moves_filter|].
  split; [apply elem_of_get_valid_moves|apply get_valid_moves_nil].
Qed.

(** C6: a move on a finished game, outside the board, or onto an occupied
    cell is refused: [make_move] returns [(False, None)] and the object is
    left as it was, field for field. *)
Theorem make_move_rejects_invalid g row col :
  game_over g = true ∨
  ¬ (0 ≤ row < 3 ∧ 0 ≤ col < 3) ∨
  cell (board g) row col ≠ 0 →
  make_move g row col = ((false, None), g).
Proof.
  intros H. unfold make_move.
  assert (is_valid_move g row col = false) as ->; [|done].
  unfold is_valid_move.
  destruct (game_over g); [done|].
  destruct H as [H|[H|H]]; [done| |].
  - by rewrite bool_decide_eq_false_2.
  - case_bool_decide; [|done]. cbn. by rewrite bool_decide_eq_false_2.
Qed.

Lemma make_move_rejects_invalid_witness :
  make_move x_wins_early 1 0 = ((false, None), x_wins_early).
Proof.
  apply (make_move_rejects_invalid x_wins_early 1 0).
  left. vm_compute. reflexivity.
Defined.

(** ** The value table *)

Lemma update_value_present value state state_prime alpha v v' :
  value !! get_state_hash state = Some v →
  value !! get_state_hash state_prime = Some v' →
  update_value state state_prime alpha value =
  (Ok tt, <[get_state_hash state := (fl (v + fl (alpha * fl (v' - v))))%Q]> value).
Proof.
  intros Hs Hs'. unfold update_value, mbind, M_bind, dict_get, dict_set.
  rewrite Hs. cbn beta iota. rewrite Hs'. cbn beta iota. by rewrite Hs.
Qed.

(** C10: when the predecessor or the successor is not a key of the table,
    [update_value] raises [KeyError] and the table is left exactly as it
    was: the three reads come before the only store. *)
Theorem update_value_missing_key value state state_prime alpha :
  value !! get_state_hash state = None ∨
  value !! get_state_hash state_prime = None →
  update_value state state_prime alpha value = (Raise KeyError, value).
Proof.
  intros H. unfold update_value, mbind, M_bind, dict_get, dict_set.
  destruct (value !! get_state_hash state) as [v|] eqn:Hs; [|done].
  destruct H as [H|H]; [done|]. cbn beta iota. by rewrite H.
Qed.


(** ** The agent *)

(** C8: [lost_game] leaves the exploration rate, the decay factor, the
    learning rate and every role's previous-state cursor as they were;
    what it does to the table is exactly [update_value] from the role's
    recorded previous state into the final state, with the agent's
    learning rate (and nothing at all when the role has no cursor). *)
Theorem lost_game_frame self game player :
  let r := (lost_game game player self).1 in
  let self' := (lost_game game player self).2 in
  exploration self' = exploration self ∧
  exploration_decay self' = exploration_decay self ∧
  alpha self' = alpha self ∧
  previous_state self' = previous_state self ∧
  match previous_state self !! player with
  | Some prev =>
      (r, value_function self') =
        update_value prev game (alpha self) (value_function self) ∧
      ∀ v v',
        value_function self !! get_state_hash prev = Some v →
        value_function self !! get_state_hash game = Some v' →
        r = Ok tt ∧
        value_function self' =
          <[get_state_hash prev := (fl (v + fl (alpha self * fl (v' - v))))%Q]>
            (value_function self)
  | None => r = Raise KeyError ∧ self' = self
  end.
Proof.
  unfold lost_game, mbind, M_bind, get_previous_state, get_st, on_table.
  destruct (previous_state self !! player) as [prev|] eqn:Hprev;
    cbn beta iota zeta; [|done].
  destruct (update_value prev game (alpha self) (value_function self))
    as [r value] eqn:Hupd.
  cbn. do 4 (split; [done|]). split; [done|].
  intros v v' Hv Hv'.
  rewrite (update_value_present _ _ _ _ v v' Hv Hv') in Hupd.
  by inversion Hupd.
Qed.

Lemma best_step_present game player acc mv value v :
  successor_value value game mv = Some v →
  best_step game player acc mv value =
  (Ok (if decide (improves player v acc.2) then (Some mv, v) else acc),
   value).
Proof.
  unfold successor_value, best_step, get_value, dict_get, mbind, M_bind.
  intros ->. cbn beta iota.
  destruct (decide (player = X)) as [Hp|Hp].
  - destruct (Qlt_le_dec acc.2 v) as [Hlt|Hle].
    + rewrite decide_True; [done|]. unfold improves. by rewrite decide_True.
    + rewrite decide_False; [done|]. unfold improves.
      rewrite decide_True by done. by apply Qle_not_lt.
  - destruct (Qlt_le_dec v acc.2) as [Hlt|Hle].
    + rewrite decide_True; [done|]. unfold improves. by rewrite decide_False.
    + rewrite decide_False; [done|]. unfold improves.
      rewrite decide_False by done. by apply Qle_not_lt.
Qed.

Lemma best_loop_selection game player value ms : ∀ acc,
  Forall (λ mv, is_Some (successor_value value game mv)) ms →
  ∃ acc',
    best_loop game player ms acc value = (Ok acc', value) ∧
    selection player
      (λ mv, default 0%Q (successor_value value game mv)) ms acc acc'.
Proof.
  induction ms as [|m ms IH]; intros acc Hall.
  - exists acc. split; [done|]. unfold selection, improves.
    split; [intros m Hm; by apply elem_of_nil in Hm|].
    split; [|by left]. case_decide; apply Qlt_irrefl.
  - apply Forall_cons in Hall as [[v Hv] Hall].
    cbn [best_loop]. unfold mbind at 1, M_bind at 1.
    rewrite (best_step_present _ _ _ _ _ v Hv).
    set (acc1 := if decide (improves player v acc.2)
                 then (Some m, v) else acc).
    destruct (IH acc1 Hall) as (acc' & Hrun & Hmax & Hmono & Hsel).
    exists acc'. split; [done|].
    assert (default 0%Q (successor_value value game m) = v) as Hvm
      by (by rewrite Hv).
    unfold selection. subst acc1.
    destruct (decide (improves player v acc.2)) as [Himp|Himp];
      cbn [snd] in *.
    + split; [|split].
      * intros m0 [->|Hm0]%elem_of_cons; [by rewrite Hvm|by apply Hmax].
      * revert Himp Hmono. unfold improves. case_decide; lra.
      * right. destruct Hsel as [->|(i & m1 & Hi & -> & Him & Hbefore)].
        -- exists 0%nat, m. rewrite Hvm. repeat split; try done. lia.
        -- exists (S i), m1. repeat split; try done.
           ++ revert Himp Him. unfold improves. case_decide; lra.
           ++ intros [|j] m' Hj Hm'.
              ** inversion Hm'; subst m'. by rewrite Hvm.
              ** apply (Hbefore j); [lia|done].
    + split; [|split; [done|]].
      * intros m0 [->|Hm0]%elem_of_cons; [|by apply Hmax].
        rewrite Hvm. revert Himp Hmono. unfold improves. case_decide; lra.
      * destruct Hsel as [->|(i & m1 & Hi & -> & Him & Hbefore)]; [by left|].
        right. exists (S i), m1. repeat split; try done.
        intros [|j] m' Hj Hm'.
        -- inversion Hm'; subst m'. rewrite Hvm.
           revert Himp Him. unfold improves. case_decide; lra.
        -- apply (Hbefore j); [lia|done].
Qed.

Lemma get_move_exploit game player rnd rnd_index self best :
  best_loop game player (get_valid_moves game) (None, best_init player)
    (value_function self) = (Ok best, value_function self) →
  (exploration self <= rnd)%Q →
  get_move game player rnd rnd_index self =
  after_choice game player best.1 (decayed self).
Proof.
  intros Hbest Hrnd.
  unfold get_move, after_choice.
  unfold mbind at 1, M_bind at 1. unfold on_table at 1. rewrite Hbest.
  destruct self as [value eps dec prev al]; cbn [value_function] in *.
  unfold mbind at 1, M_bind at 1, get_st at 1. cbn beta iota.
  cbn [exploration] in *.
  destruct (Qlt_le_dec rnd eps) as [Hlt|_]; [exfalso; lra|].
  unfold mbind at 1, M_bind at 1, mret at 1, M_ret at 1. cbn beta iota.
  unfold mbind at 1, M_bind at 1, decay_exploration at 1. cbn beta iota.
  reflexivity.
Qed.

Lemma after_choice_ok game player chosen_move self mv :
  (after_choice game player chosen_move self).1 = Ok mv →
  chosen_move = Some mv.
Proof.
  unfold after_choice. destruct chosen_move as [m|]; [|done].
  unfold subscript, mbind, M_bind, mret, M_ret, get_previous_state, get_st,
    on_table, set_previous_state.
  destruct (previous_state self !! player); [|done].
  cbn beta iota.
  destruct (update_value _ _ _ _) as [[[]| |] ?]; cbn; congruence.
Qed.

Lemma make_move_legal g mv :
  game_over g = false → mv ∈ get_valid_moves g →
  (make_move (copy g) mv.1 mv.2).1.1 = true.
Proof.
  destruct mv as [row col]. intros Hover Hin.
  apply elem_of_get_valid_moves in Hin as (Hr & Hc & Hz).
  unfold make_move.
  assert (is_valid_move (copy g) row col = true) as Hvalid.
  { unfold is_valid_move, copy. cbn. rewrite Hover.
    rewrite bool_decide_eq_true_2 by done. cbn.
    by rewrite bool_decide_eq_true_2. }
  cbn [fst snd]. rewrite Hvalid. cbn [negb].
  by destruct (_check_game_over _).
Qed.

(** C7: on a game that is not over, with every successor in the table,
    the selection loop of [get_move] starts from [(None, -1)] for X and
    [(None, 1)] for O, leaves the table alone and ends in one of two
    ways.  Either no move is kept, the bound is returned, and no
    successor value is strictly better than the bound.  Or the move at
    some position [i] of the legal-move enumeration is kept: its value
    is strictly better than the bound, no legal move has a strictly
    better value, and every move before position [i] has a strictly
    worse value, so an equal-valued later move never replaces it.
    "Better" is [>] for X and [<] for O.  When [get_move] does not
    explore, the kept move is the one it goes on with: it returns that
    move once the role's cursor is a key of the table, raises [KeyError]
    when the cursor is missing or not a key, and raises [TypeError] when
    no move was kept. *)
Theorem get_move_selection game player self rnd rnd_index :
  game_over game = false →
  Forall (λ mv, is_Some (successor_value (value_function self) game mv))
    (get_valid_moves game) →
  let moves := get_valid_moves game in
  let val mv := default 0%Q (successor_value (value_function self) game mv) in
  (best_init X = (-1)%Q ∧ best_init O = 1%Q) ∧
  (∀ a b, (improves X a b ↔ (b < a)%Q) ∧ (improves O a b ↔ (a < b)%Q)) ∧
  (∀ mv, mv ∈ moves → (make_move (copy game) mv.1 mv.2).1.1 = true) ∧
  ∃ best_move best_value,
    best_loop game player moves (None, best_init player)
      (value_function self) =
      (Ok (best_move, best_value), value_function self) ∧
    match best_move with
    | None =>
        best_value = best_init player ∧
        ∀ m, m ∈ moves → ¬ improves player (val m) (best_init player)
    | Some m =>
        ∃ i, moves !! i = Some m ∧
          best_value = val m ∧
          improves player best_value (best_init player) ∧
          (∀ m', m' ∈ moves → ¬ improves player (val m') best_value) ∧
          (∀ j m', (j < i)%nat → moves !! j = Some m' →
             improves player best_value (val m'))
    end ∧
    ((exploration self <= rnd)%Q →
     ∀ mv, (get_move game player rnd rnd_index self).1 = Ok mv →
       best_move = Some mv) ∧
    ((exploration self <= rnd)%Q →
     (get_move game player rnd rnd_index self).1 =
     match best_move with
     | None => Raise TypeError
     | Some m =>
         match previous_state self !! player with
         | None => Raise KeyError
         | Some prev =>
             if decide (is_Some (value_function self !! get_state_hash prev))
             then Ok m
             else Raise KeyError
         end
     end).
Proof.
  intros Hover Hall moves val.
  split; [done|]. split; [done|].
  split; [intros mv Hmv; by apply make_move_legal|].
  destruct (best_loop_selection game player (value_function self) moves
              (None, best_init player) Hall)
    as ([bm bv] & Hrun & Hmax & _ & Hsel).
  exists bm, bv. split; [done|]. split; [|split].
  - destruct Hsel as [Heq|(i & m & Hi & Heq & Himp & Hbefore)].
    + inversion Heq; subst bm bv. split; [done|]. apply Hmax.
    + inversion Heq; subst bm bv. exists i. cbn [snd] in *.
      repeat split; done.
  - intros Hrnd mv Hmv.
    rewrite (get_move_exploit _ _ _ _ _ _ Hrun Hrnd) in Hmv.
    by apply after_choice_ok in Hmv.
  - intros Hrnd.
    rewrite (get_move_exploit _ _ _ _ _ _ Hrun Hrnd). cbn [fst].
    destruct bm as [m|]; [|done].
    assert (is_Some (successor_value (value_function self) game m))
      as [v' Hv'].
    { destruct Hsel as [Heq|(i & m' & Hi & Heq & _)]; [done|].
      inversion Heq; subst m'.
      apply list_elem_of_lookup_2 in Hi.
      rewrite Forall_forall in Hall. by apply Hall. }
    unfold successor_value in Hv'.
    unfold after_choice, subscript, mbind, M_bind, mret, M_ret,
      get_previous_state, get_st, on_table, set_previous_state.
    cbn [previous_state decayed].
    destruct (previous_state self !! player) as [prev|]; [|done].
    cbn beta iota zeta. cbn [alpha value_function decayed].
    destruct (decide (is_Some (value_function self !! get_state_hash prev)))
      as [[v Hv]|Hnone].
    + by rewrite (update_value_present _ _ _ _ v v').
    + assert (value_function self !! get_state_hash prev = None) as Hn.
      { destruct (value_function self !! get_state_hash prev); [|done].
        exfalso. apply Hnone. by eexists. }
      unfold update_value, mbind, M_bind, dict_get. by rewrite Hn.
Qed.

Example one_move_left_open :
  game_over one_move_left = false ∧
  current_player one_move_left = X ∧
  get_valid_moves one_move_left = [(2,2)].
Proof. vm_compute. done. Qed.

(** C9: on a game that is not over and has legal moves, an agent with
    exploration rate 0 whose table gives every successor exactly the
    initial bound of the role (-1 for X, 1 for O) keeps no move: the
    rate is decayed, [chosen_move] is still [None], subscripting it
    raises [TypeError], and neither the table nor the cursors change. *)
Theorem get_move_fails_without_improvement
    self game player rnd rnd_index :
  game_over game = false →
  get_valid_moves game ≠ [] →
  (exploration self == 0)%Q →
  (0 <= rnd)%Q →
  Forall (λ mv, ∃ v,
            successor_value (value_function self) game mv = Some v ∧
            (v == best_init player)%Q)
    (get_valid_moves game) →
  get_move game player rnd rnd_index self = (Raise TypeError, decayed self).
Proof.
  intros _ _ Heps Hrnd Hall.
  assert (Forall (λ mv, is_Some (successor_value (value_function self) game mv))
            (get_valid_moves game)) as Hall'.
  { eapply Forall_impl; [exact Hall|]. intros mv (v & -> & _). by eexists. }
  destruct (best_loop_selection game player (value_function self) _
              (None, best_init player) Hall')
    as (best & Hrun & _ & _ & Hsel).
  rewrite (get_move_exploit _ _ _ _ _ _ Hrun) by lra.
  destruct Hsel as [->|(i & m & Hi & _ & Himp & _)]; [done|].
  exfalso.
  apply list_elem_of_lookup_2 in Hi.
  rewrite Forall_forall in Hall.
  destruct (Hall m Hi) as (v & Hv & Hveq).
  rewrite Hv in Himp. cbn in Himp.
  revert Himp. unfold improves. case_decide; lra.
Qed.

(** ** Invariants of legal play *)

Lemma wf_board_B9 b :
  wf_board b →
  ∃ a0 a1 a2 a3 a4 a5 a6 a7 a8,
    b = B9 a0 a1 a2 a3 a4 a5 a6 a7 a8 ∧
    (-1 ≤ a0 ≤ 1 ∧ -1 ≤ a1 ≤ 1 ∧ -1 ≤ a2 ≤ 1) ∧
    (-1 ≤ a3 ≤ 1 ∧ -1 ≤ a4 ≤ 1 ∧ -1 ≤ a5 ≤ 1) ∧
    (-1 ≤ a6 ≤ 1 ∧ -1 ≤ a7 ≤ 1 ∧ -1 ≤ a8 ≤ 1).
Proof.
  intros [Hlen Hrows].
  destruct b as [|r0 [|r1 [|r2 [|? ?]]]]; try discriminate Hlen.
  apply Forall_cons in Hrows as [[H0 R0] Hrows].
  apply Forall_cons in Hrows as [[H1 R1] Hrows].
  apply Forall_cons in Hrows as [[H2 R2] _].
  destruct r0 as [|a0 [|a1 [|a2 [|? ?]]]]; try discriminate H0.
  destruct r1 as [|a3 [|a4 [|a5 [|? ?]]]]; try discriminate H1.
  destruct r2 as [|a6 [|a7 [|a8 [|? ?]]]]; try discriminate H2.
  exists a0, a1, a2, a3, a4, a5, a6, a7, a8.
  rewrite !Forall_cons in R0, R1, R2. unfold B9. tauto.
Qed.

Lemma B9_wf_board a0 a1 a2 a3 a4 a5 a6 a7 a8 :
  (-1 ≤ a0 ≤ 1 ∧ -1 ≤ a1 ≤ 1 ∧ -1 ≤ a2 ≤ 1) →
  (-1 ≤ a3 ≤ 1 ∧ -1 ≤ a4 ≤ 1 ∧ -1 ≤ a5 ≤ 1) →
  (-1 ≤ a6 ≤ 1 ∧ -1 ≤ a7 ≤ 1 ∧ -1 ≤ a8 ≤ 1) →
  wf_board (B9 a0 a1 a2 a3 a4 a5 a6 a7 a8).
Proof.
  intros R0 R1 R2. split; [done|].
  unfold B9. rewrite !Forall_cons, !Forall_nil. tauto.
Qed.

Lemma has_line_B9 a0 a1 a2 a3 a4 a5 a6 a7 a8 v :
  has_line (B9 a0 a1 a2 a3 a4 a5 a6 a7 a8) v ↔
  (a0 = v ∧ a1 = v ∧ a2 = v) ∨ (a3 = v ∧ a4 = v ∧ a5 = v) ∨
  (a6 = v ∧ a7 = v ∧ a8 = v) ∨ (a0 = v ∧ a3 = v ∧ a6 = v) ∨
  (a1 = v ∧ a4 = v ∧ a7 = v) ∨ (a2 = v ∧ a5 = v ∧ a8 = v) ∨
  (a0 = v ∧ a4 = v ∧ a8 = v) ∨ (a2 = v ∧ a4 = v ∧ a6 = v).
Proof.
  unfold has_line, lines.
  rewrite !Exists_cons, Exists_nil, !Forall_cons, !Forall_nil.
  cbn [fst snd].
  change (cell (B9 a0 a1 a2 a3 a4 a5 a6 a7 a8) 0 0) with a0.
  change (cell (B9 a0 a1 a2 a3 a4 a5 a6 a7 a8) 0 1) with a1.
  change (cell (B9 a0 a1 a2 a3 a4 a5 a6 a7 a8) 0 2) with a2.
  change (cell (B9 a0 a1 a2 a3 a4 a5 a6 a7 a8) 1 0) with a3.
  change (cell (B9 a0 a1 a2 a3 a4 a5 a6 a7 a8) 1 1) with a4.
  change (cell (B9 a0 a1 a2 a3 a4 a5 a6 a7 a8) 1 2) with a5.
  change (cell (B9 a0 a1 a2 a3 a4 a5 a6 a7 a8) 2 0) with a6.
  change (cell (B9 a0 a1 a2 a3 a4 a5 a6 a7 a8) 2 1) with a7.
  change (cell (B9 a0 a1 a2 a3 a4 a5 a6 a7 a8) 2 2) with a8.
  tauto.
Qed.

Lemma board_full_B9 a0 a1 a2 a3 a4 a5 a6 a7 a8 :
  board_full (B9 a0 a1 a2 a3 a4 a5 a6 a7 a8) ↔
  (a0 ≠ 0 ∧ a1 ≠ 0 ∧ a2 ≠ 0) ∧ (a3 ≠ 0 ∧ a4 ≠ 0 ∧ a5 ≠ 0) ∧
  (a6 ≠ 0 ∧ a7 ≠ 0 ∧ a8 ≠ 0).
Proof.
  unfold board_full. split.
  - intros H.
    pose proof (H 0 0). pose proof (H 0 1). pose proof (H 0 2).
    pose proof (H 1 0). pose proof (H 1 1). pose proof (H 1 2).
    pose proof (H 2 0). pose proof (H 2 1). pose proof (H 2 2).
    repeat split; auto with lia.
  - intros H row col Hr Hc.
    assert (row = 0 ∨ row = 1 ∨ row = 2) as Hr' by lia.
    assert (col = 0 ∨ col = 1 ∨ col = 2) as Hc' by lia.
    destruct Hr' as [Hr'|[Hr'|Hr']]; destruct Hc' as [Hc'|[Hc'|Hc']];
      subst row col; cbv [cell B9]; cbn; tauto.
Qed.

Lemma total_B9 a0 a1 a2 a3 a4 a5 a6 a7 a8 :
  total (B9 a0 a1 a2 a3 a4 a5 a6 a7 a8) =
  a0 + a1 + a2 + a3 + a4 + a5 + a6 + a7 + a8.
Proof. unfold total, B9, sumZ. cbn [concat app foldr]. lia. Qed.

Lemma row_sum_B9 a0 a1 a2 a3 a4 a5 a6 a7 a8 :
  let b := B9 a0 a1 a2 a3 a4 a5 a6 a7 a8 in
  row_sum b 0 = a0 + a1 + a2 ∧ row_sum b 1 = a3 + a4 + a5 ∧
  row_sum b 2 = a6 + a7 + a8.
Proof. unfold row_sum, sumZ, B9; cbv -[Z.add]. lia. Qed.

Lemma col_sum_B9 a0 a1 a2 a3 a4 a5 a6 a7 a8 :
  let b := B9 a0 a1 a2 a3 a4 a5 a6 a7 a8 in
  col_sum b 0 = a0 + a3 + a6 ∧ col_sum b 1 = a1 + a4 + a7 ∧
  col_sum b 2 = a2 + a5 + a8.
Proof. unfold col_sum, sumZ, B9; cbv -[Z.add]. lia. Qed.

Lemma trace_B9 a0 a1 a2 a3 a4 a5 a6 a7 a8 :
  trace (B9 a0 a1 a2 a3 a4 a5 a6 a7 a8) = a0 + a4 + a8.
Proof. unfold trace, sumZ, B9; cbv -[Z.add]. lia. Qed.

Lemma check_game_over_spec g :
  wf_board (board g) →
  (terminal_board (board g) →
     ∃ w, (_check_game_over g).2 = finish g w ∧
       match w with
       | Some X => has_line (board g) 1
       | Some O => has_line (board g) (-1)
       | Some EMPTY => False
       | None => ¬ has_line (board g) 1 ∧ ¬ has_line (board g) (-1)
       end) ∧
  (¬ terminal_board (board g) → (_check_game_over g).2 = g).
Proof.
  intros (a0 & a1 & a2 & a3 & a4 & a5 & a6 & a7 & a8 & Hb & R0 & R1 & R2)
    %wf_board_B9.
  unfold terminal_board. rewrite <- get_valid_moves_nil.
  pose proof (get_valid_moves_nil g) as HV.
  rewrite Hb, board_full_B9 in HV.
  rewrite Hb.
  pose proof (has_line_B9 a0 a1 a2 a3 a4 a5 a6 a7 a8 1) as HX.
  pose proof (has_line_B9 a0 a1 a2 a3 a4 a5 a6 a7 a8 (-1)) as HO.
  destruct (_check_game_over g) as [rw g'] eqn:E. cbn [snd].
  unfold _check_game_over in E. rewrite Hb in E.
  change (seqZ 0 3) with [0; 1; 2] in E. cbn [find] in E.
  destruct (row_sum_B9 a0 a1 a2 a3 a4 a5 a6 a7 a8) as (Hr0 & Hr1 & Hr2).
  destruct (col_sum_B9 a0 a1 a2 a3 a4 a5 a6 a7 a8) as (Hc0 & Hc1 & Hc2).
  rewrite Hr0, Hr1, Hr2, Hc0, Hc1, Hc2, trace_B9 in E.
  clear Hr0 Hr1 Hr2 Hc0 Hc1 Hc2.
  change (cell (B9 a0 a1 a2 a3 a4 a5 a6 a7 a8) 0 2) with a2 in E.
  change (cell (B9 a0 a1 a2 a3 a4 a5 a6 a7 a8) 1 1) with a4 in E.
  change (cell (B9 a0 a1 a2 a3 a4 a5 a6 a7 a8) 2 0) with a6 in E.
  repeat (first [ case_bool_decide | case_decide ];
          cbn beta iota in E;
          try change (cell (B9 a0 a1 a2 a3 a4 a5 a6 a7 a8) 0 0) with a0 in E;
          try change (cell (B9 a0 a1 a2 a3 a4 a5 a6 a7 a8) 1 0) with a3 in E;
          try change (cell (B9 a0 a1 a2 a3 a4 a5 a6 a7 a8) 2 0) with a6 in E;
          try change (cell (B9 a0 a1 a2 a3 a4 a5 a6 a7 a8) 0 1) with a1 in E;
          try change (cell (B9 a0 a1 a2 a3 a4 a5 a6 a7 a8) 0 2) with a2 in E).
  all: inversion E; subst rw g'; clear E.
  all: split; [intros Hterm | intros Hnterm].
  all: lazymatch goal with
       | |- ∃ w, finish _ (Some X) = _ ∧ _ =>
           exists (Some X); split; [done | apply HX; fired_line]
       | |- ∃ w, finish _ (Some O) = _ ∧ _ =>
           exists (Some O); split; [done | apply HO; fired_line]
       | |- ∃ w, finish _ None = _ ∧ _ =>
           exists None; split; [done | rewrite HX, HO; split; no_line]
       | |- ∃ w, _ = finish _ _ ∧ _ =>
           exfalso; destruct Hterm as [Hl|[Hl|Hl]];
           [ apply HX in Hl; revert Hl; no_line
           | apply HO in Hl; revert Hl; no_line
           | rewrite Hl in *; done ]
       | |- finish _ (Some X) = _ =>
           exfalso; apply Hnterm; left; apply HX; fired_line
       | |- finish _ (Some O) = _ =>
           exfalso; apply Hnterm; right; left; apply HO; fired_line
       | |- finish _ None = _ =>
           exfalso; apply Hnterm; right; right; by apply nil_length_inv
       | |- ?x = ?x => reflexivity
       end.
Qed.

Lemma set_cell_legal b row col :
  legal_board b → ¬ terminal_board b →
  0 ≤ row < 3 → 0 ≤ col < 3 → cell b row col = 0 →
  legal_board (set_cell b row col (Player_value (mover b))) ∧
  total (set_cell b row col (Player_value (mover b))) =
    total b + Player_value (mover b).
Proof.
  intros (Hwf & Htot & _ & _) Hnt Hr Hc Hz.
  assert (row = 0 ∨ row = 1 ∨ row = 2) as Hr' by lia.
  assert (col = 0 ∨ col = 1 ∨ col = 2) as Hc' by lia.
  apply wf_board_B9 in Hwf
    as (a0 & a1 & a2 & a3 & a4 & a5 & a6 & a7 & a8 & -> & R0 & R1 & R2).
  assert (¬ has_line (B9 a0 a1 a2 a3 a4 a5 a6 a7 a8) 1) as HnX
    by (intros ?; apply Hnt; by left).
  assert (¬ has_line (B9 a0 a1 a2 a3 a4 a5 a6 a7 a8) (-1)) as HnO
    by (intros ?; apply Hnt; right; by left).
  clear Hnt. rewrite has_line_B9 in HnX, HnO.
  unfold mover, legal_board. rewrite total_B9 in *.
  destruct Hr' as [Hr'|[Hr'|Hr']]; destruct Hc' as [Hc'|[Hc'|Hc']];
    subst row col; clear Hr Hc.
  all: match type of Hz with cell ?b ?r ?c = 0 =>
         let x := eval cbv in (cell b r c) in change (x = 0) in Hz
       end; subst.
  all: destruct (decide _) as [Ht|Ht].
  all: match goal with
       | |- context [set_cell ?b ?r ?c ?v] =>
           let x := eval cbv -[Z.add Z.opp] in (set_cell b r c v) in
           change (set_cell b r c v) with x
       end.
  all: match goal with
       | |- context [total [[?x0; ?x1; ?x2]; [?x3; ?x4; ?x5]; [?x6; ?x7; ?x8]]] =>
           change [[x0; x1; x2]; [x3; x4; x5]; [x6; x7; x8]]
             with (B9 x0 x1 x2 x3 x4 x5 x6 x7 x8)
       end.
  all: rewrite !total_B9, !has_line_B9.
  all: change (Player_value X) with 1; change (Player_value O) with (-1).
  all: split; [|clear HnX HnO; lia].
  all: split; [apply B9_wf_board; clear HnX HnO; lia|].
  all: split; [clear HnX HnO; lia|].
  all: split.
  all: intros Hl;
       first [ clear Hl HnX HnO; lia
             | exfalso; solve [apply HnX; line_cases Hl]
             | exfalso; solve [apply HnO; line_cases Hl] ].
Qed.

Lemma is_valid_move_true g row col :
  is_valid_move g row col = true ↔
  game_over g = false ∧ (0 ≤ row < 3 ∧ 0 ≤ col < 3) ∧
  cell (board g) row col = 0.
Proof.
  unfold is_valid_move. change (Player_value EMPTY) with 0.
  destruct (game_over g); [naive_solver|].
  case_bool_decide; cbn; [|naive_solver].
  rewrite bool_decide_eq_true. naive_solver.
Qed.

Lemma terminal_board_em g :
  terminal_board (board g) ∨ ¬ terminal_board (board g).
Proof.
  unfold terminal_board, has_line. rewrite <- get_valid_moves_nil.
  destruct (decide (Exists (Forall (λ rc, cell (board g) rc.1 rc.2 = 1))
                      lines)); [tauto|].
  destruct (decide (Exists (Forall (λ rc, cell (board g) rc.1 rc.2 = -1))
                      lines)); [tauto|].
  destruct (get_valid_moves g); [tauto|].
  right. intros [?|[?|?]]; done.
Qed.

Lemma new_game_consistent : consistent new_game.
Proof.
  unfold consistent, legal_board, terminal_board, mover.
  change (board new_game) with (B9 0 0 0 0 0 0 0 0 0).
  rewrite !has_line_B9, board_full_B9, total_B9. cbn.
  repeat split; try (apply B9_wf_board; lia); try lia; try done;
    try (intros; exfalso; lia).
Qed.

Lemma make_move_consistent g row col :
  consistent g → is_valid_move g row col = true →
  consistent (make_move g row col).2 ∧
  board (make_move g row col).2 =
    set_cell (board g) row col (Player_value (mover (board g))).
Proof.
  intros (Hlegal & Hover & HwX & HwO & HwE & Hcur) Hvalid.
  unfold make_move. rewrite Hvalid. cbn [negb].
  apply is_valid_move_true in Hvalid as (Hgo & [Hr Hc] & Hz).
  assert (¬ terminal_board (board g)) as Hnt
    by (rewrite <- Hover, Hgo; done).
  rewrite (Hcur Hgo).
  destruct (set_cell_legal (board g) row col Hlegal Hnt Hr Hc Hz)
    as [Hlegal' Htot'].
  set (b' := set_cell (board g) row col (Player_value (mover (board g)))) in *.
  set (g1 := {| board := b'; current_player := mover (board g);
                game_over := game_over g; winner := winner g;
                move_history := _ |}).
  destruct (check_game_over_spec g1) as [Hterm Hnterm];
    [apply Hlegal'|].
  destruct (_check_game_over g1) as [reward g2]. cbn [snd] in *.
  destruct Hlegal' as (Hwf' & Htotal' & HlX & HlO).
  destruct (terminal_board_em g1) as [Ht|Ht]; subst g1; cbn [board] in *.
  - destruct (Hterm Ht) as (w & -> & Hw). cbn.
    split; [|done].
    split; [done|]. split; [done|].
    assert (has_line b' 1 → has_line b' (-1) → False) as Hexcl
      by (intros H1 H2; specialize (HlX H1); specialize (HlO H2); lia).
    destruct w as [[| |]|]; [| |done|].
    + repeat split; try done. intros Hl. exfalso. eauto.
    + repeat split; try done. intros Hl. exfalso. eauto.
    + destruct Hw as [Hw1 Hw2]. repeat split; try done.
  - rewrite (Hnterm Ht). cbn. rewrite Hgo. cbn.
    split; [|done].
    assert (¬ has_line b' 1 ∧ ¬ has_line b' (-1)) as [Hn1 Hn2]
      by (unfold terminal_board in Ht; tauto).
    assert (¬ has_line (board g) 1 ∧ ¬ has_line (board g) (-1)) as [Hm1 Hm2]
      by (unfold terminal_board in Hnt; tauto).
    split; [done|]. split; [split; [done|]; intros Ht'; by destruct Ht|].
    split; [rewrite HwX; tauto|]. split; [rewrite HwO; tauto|].
    split; [done|]. intros _.
    revert Htot'. unfold mover. cbn [board current_player].
    destruct Hlegal as (_ & Htot & _).
    repeat case_decide; cbn; try done; lia.
Qed.

Lemma reachable_consistent g : reachable g → consistent g.
Proof.
  induction 1 as [|g row col _ IH Hvalid].
  - apply new_game_consistent.
  - by apply make_move_consistent.
Qed.

Lemma copy_eq g : copy g = g.
Proof. by destruct g. Qed.

Lemma make_move_invalid g row col :
  is_valid_move g row col = false → (make_move g row col).2 = g.
Proof. intros H. unfold make_move. by rewrite H. Qed.

Lemma reachable_play g mv : reachable g → reachable (play (copy g) mv).
Proof.
  intros Hg. rewrite copy_eq. unfold play.
  destruct (is_valid_move g mv.1 mv.2) eqn:Hvalid.
  - by apply reachable_move.
  - by rewrite make_move_invalid.
Qed.

Lemma wf_board_hash_inj b1 b2 :
  wf_board b1 → wf_board b2 → concat b1 = concat b2 → b1 = b2.
Proof.
  intros (a0 & a1 & a2 & a3 & a4 & a5 & a6 & a7 & a8 & -> & _)%wf_board_B9.
  intros (c0 & c1 & c2 & c3 & c4 & c5 & c6 & c7 & c8 & -> & _)%wf_board_B9.
  unfold B9. cbn. intros H. by inversion H.
Qed.

Lemma reachable_wf g : reachable g → wf_board (board g).
Proof. intros Hg. by destruct (reachable_consistent g Hg) as [[? _] _]. Qed.

Lemma reachable_same_board g1 g2 :
  reachable g1 → reachable g2 →
  get_state_hash g1 = get_state_hash g2 → board g1 = board g2.
Proof.
  intros H1 H2 Hh.
  apply wf_board_hash_inj; [by apply reachable_wf..|done].
Qed.

(** Objects with the same grid carry the same flags, offer the same moves
    and lead to the same grids. *)
Lemma reachable_determined g1 g2 :
  reachable g1 → reachable g2 →
  get_state_hash g1 = get_state_hash g2 →
  game_over g1 = game_over g2 ∧
  winner g1 = winner g2 ∧
  get_valid_moves g1 = get_valid_moves g2 ∧
  ∀ mv, get_state_hash (play g1 mv) = get_state_hash (play g2 mv).
Proof.
  intros H1 H2 Hh.
  pose proof (reachable_same_board g1 g2 H1 H2 Hh) as Hb.
  pose proof (reachable_consistent g1 H1) as C1.
  pose proof (reachable_consistent g2 H2) as C2.
  assert (game_over g1 = game_over g2) as Hover.
  { destruct C1 as (_ & Ho1 & _), C2 as (_ & Ho2 & _).
    rewrite Hb in Ho1.
    destruct (game_over g1), (game_over g2); try done.
    - symmetry. apply Ho2, Ho1. done.
    - apply Ho1, Ho2. done. }
  split; [done|]. split; [|split].
  - destruct C1 as (_ & _ & X1 & O1 & E1 & _), C2 as (_ & _ & X2 & O2 & E2 & _).
    rewrite Hb in X1, O1.
    destruct (winner g1) as [[| |]|], (winner g2) as [[| |]|]; try done.
    all: try (exfalso; apply X1 in X2; naive_solver).
    all: try (exfalso; apply O1 in O2; naive_solver).
    all: try (symmetry; by apply X2, X1).
    all: try (by apply X1, X2).
    all: try (symmetry; by apply O2, O1).
    all: try (by apply O1, O2).
  - unfold get_valid_moves. by rewrite Hb.
  - intros mv. unfold play.
    assert (is_valid_move g1 mv.1 mv.2 = is_valid_move g2 mv.1 mv.2) as Hv
      by (unfold is_valid_move; by rewrite Hover, Hb).
    destruct (is_valid_move g1 mv.1 mv.2) eqn:Hv1; symmetry in Hv.
    + destruct (make_move_consistent g1 _ _ C1 Hv1) as [_ E1].
      destruct (make_move_consistent g2 _ _ C2 Hv) as [_ E2].
      unfold get_state_hash. by rewrite E1, E2, Hb.
    + by rewrite !make_move_invalid.
Qed.

(** ** The constructor's loop *)

(** *** The finite universe of keys *)

Lemma length_all_keys n : length (all_keys n) = (3 ^ n)%nat.
Proof.
  induction n as [|n IH]; [done|].
  cbn [all_keys]. rewrite Nat.pow_succ_r', <- IH.
  generalize (all_keys n). intros l.
  induction l as [|k l IHl]; [done|]. cbn in *. lia.
Qed.

Lemma elem_of_all_keys k :
  Forall (λ a, -1 ≤ a ≤ 1) k → k ∈ all_keys (length k).
Proof.
  induction 1 as [|a k Ha _ IH]; [by left|].
  cbn [length all_keys]. apply list_elem_of_bind.
  exists k. split; [|done].
  assert (a = -1 ∨ a = 0 ∨ a = 1) as Ha' by lia.
  destruct Ha' as [Ha'|[Ha'|Ha']]; subst a; rewrite !elem_of_cons; tauto.
Qed.

Lemma size_list_to_set_le (l : list (list Z)) :
  (size (list_to_set l : gset (list Z)) ≤ length l)%nat.
Proof.
  induction l as [|k l IH]; [by rewrite list_to_set_nil, size_empty|].
  rewrite list_to_set_cons, size_union_alt, size_singleton. cbn [length].
  pose proof (subseteq_size
    (list_to_set l ∖ {[k]} : gset (list Z)) (list_to_set l)) as Hle.
  specialize (Hle ltac:(set_solver)). lia.
Qed.

Lemma size_universe : (size universe ≤ 3 ^ 9)%nat.
Proof.
  unfold universe. rewrite <- (length_all_keys 9). apply size_list_to_set_le.
Qed.

Lemma reachable_in_universe g : reachable g → get_state_hash g ∈ universe.
Proof.
  intros (a0 & a1 & a2 & a3 & a4 & a5 & a6 & a7 & a8 & Hb & R0 & R1 & R2)
    %reachable_wf%wf_board_B9.
  unfold universe, get_state_hash. rewrite Hb, elem_of_list_to_set.
  apply (elem_of_all_keys [a0; a1; a2; a3; a4; a5; a6; a7; a8]).
  repeat constructor; lia.
Qed.

Lemma length_get_valid_moves g : (length (get_valid_moves g) ≤ 9)%nat.
Proof.
  rewrite get_valid_moves_filter. apply (length_filter _ all_cells).
Qed.

(** *** The set operations *)

Lemma set_pop_None i s : set_pop i s = None ↔ s = [].
Proof.
  unfold set_pop. destruct s as [|x s]; [done|].
  split; [|done]. intros H. exfalso.
  assert (i mod length (x :: s) < length (x :: s))%nat as Hlt
    by (apply Nat.mod_upper_bound; done).
  apply lookup_lt_is_Some in Hlt as [y Hy].
  rewrite Hy in H. done.
Qed.

Lemma set_pop_Some i s x s' :
  set_pop i s = Some (x, s') →
  length s = S (length s') ∧
  (∀ y, y ∈ s ↔ y = x ∨ y ∈ s').
Proof.
  unfold set_pop. set (j := (i mod length s)%nat).
  destruct (s !! j) as [y|] eqn:Hj; [|done]. cbn.
  intros [= -> <-].
  pose proof (lookup_lt_Some _ _ _ Hj) as Hlt.
  split.
  - rewrite length_delete by eauto. lia.
  - intros z. rewrite delete_take_drop.
    rewrite <- (take_drop_middle s j x Hj) at 1.
    rewrite !elem_of_app, elem_of_cons. tauto.
Qed.

Lemma set_add_spec x s :
  (∀ y, y ∈ set_add x s → y = x ∨ y ∈ s) ∧
  (∀ k, k ∈ get_state_hash <$> set_add x s ↔
        k = get_state_hash x ∨ k ∈ get_state_hash <$> s) ∧
  (length (set_add x s) ≤ S (length s))%nat.
Proof.
  unfold set_add. case_bool_decide as Hin.
  - split; [tauto|]. split; [|lia]. intros k. split; [tauto|].
    intros [->|?]; done.
  - split; [|split].
    + intros y [?|Hy]%elem_of_app; [tauto|].
      apply list_elem_of_singleton in Hy. tauto.
    + intros k. rewrite fmap_app, elem_of_app. cbn.
      rewrite list_elem_of_singleton. tauto.
    + rewrite length_app. cbn. lia.
Qed.

Lemma expand_spec state moves : ∀ s,
  let s' := foldl (λ acc mv, set_add (play (copy state) mv) acc) s moves in
  (∀ y, y ∈ s' → y ∈ s ∨ ∃ mv, mv ∈ moves ∧ y = play (copy state) mv) ∧
  (∀ k, k ∈ get_state_hash <$> s' ↔
        k ∈ get_state_hash <$> s ∨
        ∃ mv, mv ∈ moves ∧ k = get_state_hash (play (copy state) mv)) ∧
  (length s' ≤ length s + length moves)%nat.
Proof.
  induction moves as [|mv moves IH]; intros s; cbn [foldl].
  - split; [tauto|]. split; [|cbn; lia].
    intros k. split; [tauto|]. intros [?|(mv & Hmv & _)]; [done|].
    by apply elem_of_nil in Hmv.
  - destruct (IH (set_add (play (copy state) mv) s)) as (E1 & E2 & E3).
    destruct (set_add_spec (play (copy state) mv) s) as (A1 & A2 & A3).
    split; [|split].
    + intros y Hy. destruct (E1 y Hy) as [Hy'|(mv' & Hmv' & ->)].
      * destruct (A1 y Hy') as [->|?]; [|tauto].
        right. exists mv. split; [left|done].
      * right. exists mv'. split; [by right|done].
    + intros k. rewrite E2, A2. split.
      * intros [[->|?]|(mv' & Hmv' & ->)]; [|tauto|].
        -- right. exists mv. split; [left|done].
        -- right. exists mv'. split; [by right|done].
      * intros [?|(mv' & [->|Hmv']%elem_of_cons & ->)]; [tauto|tauto|].
        right. by exists mv'.
    + cbn [length]. lia.
Qed.

(** *** Preservation of the loop invariant *)

Lemma loop_inv_start : loop_inv (set_add new_game []) ∅.
Proof.
  split; [|split; [|split]].
  - repeat constructor.
  - intros k v Hk. by rewrite lookup_empty in Hk.
  - intros g mv _ [v Hv]. by rewrite lookup_empty in Hv.
  - right. left.
Qed.

Lemma loop_inv_skip state open_states open_states' value :
  (∀ y, y ∈ open_states ↔ y = state ∨ y ∈ open_states') →
  is_Some (value !! get_state_hash state) →
  loop_inv open_states value → loop_inv open_states' value.
Proof.
  intros Hpop Hin (Hreach & Hsound & Hclosed & Hinit).
  assert (∀ k, pending open_states value k → pending open_states' value k)
    as Hpend.
  { intros k [?|Hk]; [by left|].
    apply list_elem_of_fmap in Hk as (y & -> & Hy).
    apply Hpop in Hy as [->|Hy]; [by left|].
    right. by apply list_elem_of_fmap_2. }
  split; [|split; [done|split]].
  - rewrite Forall_forall in Hreach |- *.
    intros y Hy. apply Hreach, Hpop. by right.
  - intros g mv Hg Hk Hmv. by apply Hpend, Hclosed.
  - by apply Hpend.
Qed.

Lemma loop_inv_process state open_states open_states' value v :
  (∀ y, y ∈ open_states ↔ y = state ∨ y ∈ open_states') →
  initial_value (get_winner state) = Some v →
  loop_inv open_states value →
  loop_inv (expand state open_states')
    (<[get_state_hash state := v]> value).
Proof.
  intros Hpop Hv (Hreach & Hsound & Hclosed & Hinit).
  rewrite Forall_forall in Hreach.
  assert (reachable state) as Hstate by (apply Hreach, Hpop; by left).
  destruct (expand_spec state (get_valid_moves state) open_states')
    as (E1 & E2 & _).
  fold (expand state open_states') in E1, E2.
  assert (∀ k, pending open_states value k →
               pending (expand state open_states')
                 (<[get_state_hash state := v]> value) k) as Hpend.
  { intros k [[w Hw]|Hk].
    - left. destruct (decide (get_state_hash state = k)) as [<-|Hne].
      + rewrite lookup_insert_eq. by eexists.
      + rewrite lookup_insert_ne by done. by eexists.
    - apply list_elem_of_fmap in Hk as (y & -> & Hy).
      apply Hpop in Hy as [->|Hy].
      + left. rewrite lookup_insert_eq. by eexists.
      + right. apply E2. left. by apply list_elem_of_fmap_2. }
  split; [|split; [|split]].
  - rewrite Forall_forall. intros y Hy.
    destruct (E1 y Hy) as [Hy'|(mv & _ & ->)].
    + apply Hreach, Hpop. by right.
    + by apply reachable_play.
  - intros k w Hk.
    destruct (decide (get_state_hash state = k)) as [<-|Hne].
    + rewrite lookup_insert_eq in Hk. inversion Hk; subst w.
      by exists state.
    + rewrite lookup_insert_ne in Hk by done. by apply Hsound.
  - intros g mv Hg Hk Hmv.
    destruct (decide (get_state_hash state = get_state_hash g)) as [Heq|Hne].
    + destruct (reachable_determined state g Hstate Hg Heq)
        as (_ & _ & Hmoves & Hplay).
      right. apply E2. right. exists mv.
      split; [by rewrite Hmoves|]. by rewrite copy_eq, Hplay.
    + rewrite lookup_insert_ne in Hk by done.
      by apply Hpend, Hclosed.
  - by apply Hpend.
Qed.

(** When the frontier is empty the table holds the reachable grids and
    nothing else. *)
Lemma loop_inv_done value :
  loop_inv [] value →
  ∀ k, is_Some (value !! k) ↔ reachable_board k.
Proof.
  intros (_ & Hsound & Hclosed & Hinit) k. split.
  - intros [v Hv]. destruct (Hsound k v Hv) as (g & Hg & Hk & _).
    by exists g.
  - intros (g & Hg & <-).
    induction Hg as [|g row col Hg IH Hvalid].
    + destruct Hinit as [?|Hin]; [done|]. by apply elem_of_nil in Hin.
    + apply is_valid_move_true in Hvalid as (_ & [Hr Hc] & Hz).
      destruct (Hclosed g (row, col) Hg IH) as [?|Hin]; [|done|].
      * apply elem_of_get_valid_moves. done.
      * by apply elem_of_nil in Hin.
Qed.

(** *** Enough fuel *)

Lemma size_difference_insert (U : gset (list Z)) (value : Table) k v :
  k ∈ U → value !! k = None →
  S (size (U ∖ dom (<[k := v]> value))) = size (U ∖ dom value).
Proof.
  intros Hk Hnone.
  assert (k ∈ U ∖ dom value) as Hin.
  { apply elem_of_difference. split; [done|].
    by apply not_elem_of_dom. }
  rewrite dom_insert_L.
  replace (U ∖ ({[k]} ∪ dom value))
    with ((U ∖ dom value) ∖ {[k]}) by set_solver.
  rewrite size_difference by set_solver. rewrite size_singleton.
  assert (size ({[k]} : gset (list Z)) ≤ size (U ∖ dom value))%nat
    as Hle by (apply subseteq_size; set_solver).
  rewrite size_singleton in Hle. lia.
Qed.

Lemma size_difference_le (U D : gset (list Z)) :
  (size (U ∖ D) ≤ size U)%nat.
Proof. apply subseteq_size. set_solver. Qed.

Lemma reachable_initial_value g :
  reachable g → is_Some (initial_value (get_winner g)).
Proof.
  intros (_ & _ & _ & _ & HE & _)%reachable_consistent.
  unfold get_winner. destruct (winner g) as [[| |]|]; by eauto.
Qed.

Lemma init_loop_runs pick : ∀ fuel n open_states value,
  loop_inv open_states value →
  (loop_measure open_states value < fuel)%nat →
  ∃ t, init_loop pick fuel n open_states value = Ok t ∧ loop_inv [] t.
Proof.
  induction fuel as [|fuel IH]; intros n open_states value Hinv Hfuel;
    [lia|].
  cbn [init_loop].
  destruct (set_pop (pick n) open_states) as [[state open_states']|] eqn:Hpop.
  - destruct (set_pop_Some _ _ _ _ Hpop) as [Hlen Hmem].
    assert (reachable state) as Hstate.
    { destruct Hinv as [Hreach _]. rewrite Forall_forall in Hreach.
      apply Hreach, Hmem. by left. }
    unfold loop_measure in Hfuel.
    destruct (decide (is_Some (value !! get_state_hash state))) as [Hin|Hin].
    + apply IH; [by eapply loop_inv_skip|].
      unfold loop_measure. lia.
    + destruct (reachable_initial_value state Hstate) as [v Hv].
      rewrite Hv.
      apply IH; [by eapply loop_inv_process|].
      unfold loop_measure.
      destruct (expand_spec state (get_valid_moves state) open_states')
        as (_ & _ & Hlen').
      fold (expand state open_states') in Hlen'.
      pose proof (length_get_valid_moves state) as Hnine.
      pose proof (size_difference_insert universe value
                    (get_state_hash state) v
                    (reachable_in_universe state Hstate)) as Hsize.
      rewrite <- Hsize in Hfuel; [lia|].
      by apply eq_None_not_Some.
  - apply set_pop_None in Hpop as ->. by exists value.
Qed.

Lemma init_fuel_enough : (1 + 10 * size universe < init_fuel)%nat.
Proof.
  unfold init_fuel. pose proof size_universe as Hu.
  revert Hu. generalize (3 ^ 9)%nat (size universe). intros; lia.
Qed.

Lemma ValueFunction_init_result pick extra :
  ∃ value,
    ValueFunction_init pick (init_fuel + extra) = Ok value ∧
    loop_inv [] value.
Proof.
  apply init_loop_runs; [apply loop_inv_start|].
  unfold loop_measure.
  pose proof init_fuel_enough as Hu.
  pose proof (size_difference_le universe (dom (∅ : Table))) as Hle.
  change (length (set_add new_game [])) with 1%nat.
  lia.
Qed.

(** *** Grids past a terminal position *)

Lemma set_cell_keeps_line b row col v w :
  wf_board b → 0 ≤ row < 3 → 0 ≤ col < 3 → cell b row col = 0 →
  v = 1 ∨ v = -1 → w = 1 ∨ w = -1 →
  wf_board (set_cell b row col v) ∧
  total (set_cell b row col v) = total b + v ∧
  (has_line b w → has_line (set_cell b row col v) w).
Proof.
  intros Hwf Hr Hc Hz Hv Hw.
  assert (row = 0 ∨ row = 1 ∨ row = 2) as Hr' by lia.
  assert (col = 0 ∨ col = 1 ∨ col = 2) as Hc' by lia.
  apply wf_board_B9 in Hwf
    as (a0 & a1 & a2 & a3 & a4 & a5 & a6 & a7 & a8 & -> & R0 & R1 & R2).
  destruct Hr' as [Hr'|[Hr'|Hr']]; destruct Hc' as [Hc'|[Hc'|Hc']];
    subst row col; clear Hr Hc.
  all: match type of Hz with cell ?b ?r ?c = 0 =>
         let x := eval cbv in (cell b r c) in change (x = 0) in Hz
       end; subst.
  all: match goal with
       | |- context [set_cell ?b ?r ?c ?v] =>
           let x := eval cbv -[Z.add Z.opp] in (set_cell b r c v) in
           change (set_cell b r c v) with x
       end.
  all: match goal with
       | |- context [total [[?x0; ?x1; ?x2]; [?x3; ?x4; ?x5]; [?x6; ?x7; ?x8]]] =>
           change [[x0; x1; x2]; [x3; x4; x5]; [x6; x7; x8]]
             with (B9 x0 x1 x2 x3 x4 x5 x6 x7 x8)
       end.
  all: rewrite !total_B9, !has_line_B9.
  all: split; [apply B9_wf_board; lia|]; split; [lia|].
  all: destruct Hw; subst w; intros Hl; line_cases Hl.
Qed.

Lemma past_terminal_unreachable g row col v :
  reachable g → game_over g = true →
  0 ≤ row < 3 → 0 ≤ col < 3 → cell (board g) row col = 0 →
  v = 1 ∨ v = -1 →
  ¬ reachable_board (concat (set_cell (board g) row col v)).
Proof.
  intros Hg Hover Hr Hc Hz Hv (g' & Hg' & Hhash).
  destruct (reachable_consistent g Hg)
    as ((Hwf & _ & HlX & HlO) & Hterm & _).
  apply Hterm in Hover as [Hl|[Hl|Hfull]]; [| |by destruct (Hfull row col)].
  - destruct (set_cell_keeps_line (board g) row col v 1 Hwf Hr Hc Hz Hv)
      as (Hwf' & Htot & Hkeep); [by left|].
    destruct (reachable_consistent g' Hg') as ((Hwf'' & _ & HlX' & _) & _).
    assert (board g' = set_cell (board g) row col v) as Hb
      by (by apply wf_board_hash_inj).
    rewrite Hb in HlX'. specialize (HlX' (Hkeep Hl)). specialize (HlX Hl).
    lia.
  - destruct (set_cell_keeps_line (board g) row col v (-1) Hwf Hr Hc Hz Hv)
      as (Hwf' & Htot & Hkeep); [by right|].
    destruct (reachable_consistent g' Hg') as ((Hwf'' & _ & _ & HlO') & _).
    assert (board g' = set_cell (board g) row col v) as Hb
      by (by apply wf_board_hash_inj).
    rewrite Hb in HlO'. specialize (HlO' (Hkeep Hl)). specialize (HlO Hl).
    lia.
Qed.

Lemma no_entry_for_key (l : list (list Z * Q)) k :
  k ∉ l.*1 → filter (λ kv, kv.1 = k) l = [].
Proof.
  induction l as [|[k' v'] l IH]; intros Hk; [done|].
  cbn in Hk. apply not_elem_of_cons in Hk as [Hne Hk].
  rewrite filter_cons. cbn [fst].
  rewrite decide_False by done. by apply IH.
Qed.

Lemma one_entry_per_key (l : list (list Z * Q)) k v :
  NoDup l.*1 → (k, v) ∈ l →
  length (filter (λ kv, kv.1 = k) l) = 1%nat.
Proof.
  induction l as [|[k' v'] l IH]; intros Hnd Hin;
    [by apply elem_of_nil in Hin|].
  cbn in Hnd. apply NoDup_cons in Hnd as [Hk' Hnd].
  rewrite filter_cons. cbn [fst].
  apply elem_of_cons in Hin as [Heq|Hin].
  - inversion Heq; subst k' v'.
    rewrite decide_True by done. cbn [length].
    by rewrite no_entry_for_key.
  - rewrite decide_False; [by apply IH|].
    intros ->. apply Hk'.
    apply list_elem_of_fmap. by exists (k, v).
Qed.

(** *** The table after construction *)

(** C1: for every order in which the frontier set may hand out its
    members, the constructor's loop ends (at most [init_fuel] iterations)
    without raising, and the table it leaves has an entry for a grid
    exactly when the grid is reachable from the empty board by legal
    moves; a reachable grid has exactly one entry, and a grid obtained by
    placing a further mark on a finished game has none. *)
Theorem ValueFunction_init_enumerates pick extra :
  ∃ value,
    ValueFunction_init pick (init_fuel + extra) = Ok value ∧
    (∀ k, is_Some (value !! k) ↔ reachable_board k) ∧
    (∀ k, reachable_board k →
       length (filter (λ kv, kv.1 = k) (map_to_list value)) = 1%nat) ∧
    (∀ g row col v,
       reachable g → game_over g = true →
       0 ≤ row < 3 → 0 ≤ col < 3 → cell (board g) row col = 0 →
       v = 1 ∨ v = -1 →
       value !! concat (set_cell (board g) row col v) = None).
Proof.
  destruct (ValueFunction_init_result pick extra) as (value & Hrun & Hinv).
  pose proof (loop_inv_done value Hinv) as Hkeys.
  exists value. split; [done|]. split; [done|]. split.
  - intros k [v Hv]%Hkeys.
    apply (one_entry_per_key _ k v).
    + apply NoDup_fst_map_to_list.
    + by apply elem_of_map_to_list.
  - intros g row col v Hg Hover Hr Hc Hz Hv.
    apply eq_None_not_Some. rewrite Hkeys.
    by apply past_terminal_unreachable.
Qed.

Lemma entry_value (value : Table) b v :
  entries_sound value → wf_board b → value !! concat b = Some v →
  (has_line b 1 → v = 1%Q) ∧
  (has_line b (-1) → v = (-1)%Q) ∧
  (¬ has_line b 1 → ¬ has_line b (-1) → v = 0%Q).
Proof.
  intros Hsound Hwf Hv.
  destruct (Hsound _ _ Hv) as (g & Hg & Hhash & Hinit).
  destruct (reachable_consistent g Hg)
    as ((Hwf' & _ & HlX & HlO) & _ & HwX & HwO & HwE & _).
  assert (board g = b) as Hb by (by apply wf_board_hash_inj).
  rewrite Hb in *. clear Hb.
  destruct (winner g) as [[| |]|]; cbn in Hinit; inversion Hinit; subst v.
  - assert (has_line b 1) as Hl by (by apply HwX).
    split; [done|]. split; [|done].
    intros Hl'. specialize (HlX Hl). specialize (HlO Hl'). lia.
  - assert (has_line b (-1)) as Hl by (by apply HwO).
    split; [|done].
    intros Hl'. specialize (HlX Hl'). specialize (HlO Hl). lia.
  - split; [|split; [|done]].
    + intros Hl. by apply HwX in Hl.
    + intros Hl. by apply HwO in Hl.
Qed.

(** C2: in the table the constructor leaves, the entry of a grid is 1
    when X has three in a row, -1 when O has, 0 when the grid is full
    without a line, and 0 when the grid is not terminal. *)
Theorem ValueFunction_init_values pick extra :
  ∃ value,
    ValueFunction_init pick (init_fuel + extra) = Ok value ∧
    ∀ b v, wf_board b → value !! concat b = Some v →
      (has_line b 1 → v = 1%Q) ∧
      (has_line b (-1) → v = (-1)%Q) ∧
      (board_full b → ¬ has_line b 1 → ¬ has_line b (-1) → v = 0%Q) ∧
      (¬ terminal_board b → v = 0%Q).
Proof.
  destruct (ValueFunction_init_result pick extra)
    as (value & Hrun & _ & Hsound & _).
  exists value. split; [done|].
  intros b v Hwf Hv.
  destruct (entry_value value b v Hsound Hwf Hv) as (H1 & H2 & H3).
  split; [done|]. split; [done|]. split; [by auto|].
  intros Hnt. apply H3; intros Hl; apply Hnt; [by left|right; by left].
Qed.

(** *** Calls after construction *)

Lemma update_value_other (state state_prime : TicTacToe) (alpha : Q)
    (value : Table) (k : list Z) :
  get_state_hash state ≠ k →
  (update_value state state_prime alpha value).2 !! k = value !! k.
Proof.
  intros Hne. unfold update_value, mbind, M_bind, dict_get, dict_set.
  destruct (value !! get_state_hash state) as [v|] eqn:Hs; [|done].
  cbn beta iota.
  destruct (value !! get_state_hash state_prime) as [v'|] eqn:Hs'; [|done].
  cbn beta iota. rewrite Hs. cbn. by rewrite lookup_insert_ne.
Qed.

Lemma run_call_terminal (c : table_call) (value : Table)
    (b : list (list Z)) :
  proper_call c → wf_board b → terminal_board b →
  run_call c value !! concat b = value !! concat b.
Proof.
  intros Hc Hwf Hterm. destruct c as [state state_prime alpha|state].
  - destruct Hc as [Hwf' Hnt]. cbn. apply update_value_other.
    intros Heq. apply Hnt.
    by rewrite (wf_board_hash_inj _ _ Hwf' Hwf Heq).
  - cbn. unfold get_value, dict_get.
    by destruct (value !! get_state_hash state).
Qed.

Lemma run_calls_terminal (calls : list table_call) :
  ∀ (value : Table) (b : list (list Z)),
  Forall proper_call calls → wf_board b → terminal_board b →
  run_calls calls value !! concat b = value !! concat b.
Proof.
  induction calls as [|c calls IH]; intros value b Hcalls Hwf Hterm;
    [done|].
  apply Forall_cons in Hcalls as [Hc Hcalls].
  cbn. unfold run_calls in IH. rewrite IH by done.
  by apply run_call_terminal.
Qed.

(** C4: take the table the constructor leaves and any sequence of
    [update_value] and [get_value] calls in which no update has a
    terminal grid as its predecessor.  Then every terminal grid of the
    table still has, after all the calls, the value it was given at
    construction: 1 for a line of X, -1 for a line of O, 0 for a full
    grid without a line. *)
Theorem terminal_values_stable pick extra :
  ∃ value,
    ValueFunction_init pick (init_fuel + extra) = Ok value ∧
    ∀ calls b,
      Forall proper_call calls →
      wf_board b → terminal_board b → is_Some (value !! concat b) →
      ∃ v,
        value !! concat b = Some v ∧
        run_calls calls value !! concat b = Some v ∧
        (has_line b 1 → v = 1%Q) ∧
        (has_line b (-1) → v = (-1)%Q) ∧
        (¬ has_line b 1 → ¬ has_line b (-1) → v = 0%Q).
Proof.
  destruct (ValueFunction_init_result pick extra)
    as (value & Hrun & _ & Hsound & _).
  exists value. split; [done|].
  intros calls b Hcalls Hwf Hterm [v Hv].
  exists v. split; [done|].
  split; [by rewrite run_calls_terminal|].
  exact (entry_value value b v Hsound Hwf Hv).
Qed.

(** * Further properties of the rule engine *)

Lemma cell_set_cell b row col v row' col' :
  wf_board b →
  0 ≤ row < 3 → 0 ≤ col < 3 → 0 ≤ row' < 3 → 0 ≤ col' < 3 →
  cell (set_cell b row col v) row' col' =
  if decide (row' = row ∧ col' = col) then v else cell b row' col'.
Proof.
  intros Hwf Hr Hc Hr' Hc'.
  assert (row = 0 ∨ row = 1 ∨ row = 2) as Er by lia.
  assert (col = 0 ∨ col = 1 ∨ col = 2) as Ec by lia.
  assert (row' = 0 ∨ row' = 1 ∨ row' = 2) as Er' by lia.
  assert (col' = 0 ∨ col' = 1 ∨ col' = 2) as Ec' by lia.
  apply wf_board_B9 in Hwf
    as (a0 & a1 & a2 & a3 & a4 & a5 & a6 & a7 & a8 & -> & _).
  destruct Er as [Er|[Er|Er]]; destruct Ec as [Ec|[Ec|Ec]];
    destruct Er' as [Er'|[Er'|Er']]; destruct Ec' as [Ec'|[Ec'|Ec']];
    subst row col row' col'; clear Hr Hc Hr' Hc';
    case_decide as Hd; first [reflexivity | exfalso; lia].
Qed.

Lemma set_cell_wf b row col v :
  wf_board b → -1 ≤ v ≤ 1 → wf_board (set_cell b row col v).
Proof.
  intros [Hlen Hrows] Hv. unfold set_cell.
  destruct (b !! Z.to_nat row) as [r|] eqn:Hrow.
  - rewrite (list_lookup_total_correct _ _ _ Hrow).
    destruct (Forall_lookup_1 _ _ _ _ Hrows Hrow) as [Hl Hf].
    split; [by rewrite length_insert|].
    apply Forall_insert; [done|].
    split; [by rewrite length_insert|]. by apply Forall_insert.
  - apply lookup_ge_None in Hrow. by rewrite list_insert_ge.
Qed.

(** What [_check_game_over] can return, and the object that goes with
    each return value. *)
Lemma check_game_over_cases g :
  _check_game_over g = (None, g) ∨
  _check_game_over g = (Some 0, finish g None) ∨
  _check_game_over g = (Some 1, finish g (Some X)) ∨
  _check_game_over g = (Some (-1), finish g (Some O)).
Proof.
  unfold _check_game_over.
  destruct (find _ _) as [row|].
  { case_decide; cbn; tauto. }
  destruct (find _ _) as [col|].
  { case_decide; cbn; tauto. }
  repeat case_decide; cbn; tauto.
Qed.

Lemma make_move_flags g row col :
  is_valid_move g row col = true →
  ∃ reward g',
    make_move g row col = ((true, reward), g') ∧
    board g' =
      set_cell (board g) row col (Player_value (current_player g)) ∧
    move_history g' = move_history g ++ [(row, col, current_player g)] ∧
    ((reward = None ∧ game_over g' = false ∧ winner g' = winner g ∧
      current_player g' = other_player (current_player g)) ∨
     (reward = Some 0 ∧ game_over g' = true ∧ winner g' = None ∧
      current_player g' = current_player g) ∨
     (reward = Some 1 ∧ game_over g' = true ∧ winner g' = Some X ∧
      current_player g' = current_player g) ∨
     (reward = Some (-1) ∧ game_over g' = true ∧ winner g' = Some O ∧
      current_player g' = current_player g)).
Proof.
  intros Hvalid. unfold make_move. rewrite Hvalid. cbn [negb].
  apply is_valid_move_true in Hvalid as (Hgo & _ & _).
  set (g1 := {| board := _; current_player := current_player g;
                game_over := game_over g; winner := winner g;
                move_history := _ |}).
  destruct (check_game_over_cases g1) as [E|[E|[E|E]]]; rewrite E;
    subst g1; cbn; rewrite ?Hgo; cbn; eexists _, _;
    (split; [reflexivity|]); cbn; tauto.
Qed.

Lemma reachable_plays g moves : reachable g → reachable (foldl play g moves).
Proof.
  revert g. induction moves as [|mv moves IH]; intros g Hg; [done|].
  cbn. apply IH. rewrite <- (copy_eq g). by apply reachable_play.
Qed.

(** X1: a valid move is executed: [make_move] reports success, the
    mover's mark is in the requested cell, every other cell is as
    before, the board is still a 3x3 grid over -1, 0, 1, and the history
    has grown by exactly this move. *)
Theorem make_move_places_mark g row col :
  wf_board (board g) → is_valid_move g row col = true →
  (make_move g row col).1.1 = true ∧
  wf_board (board (make_move g row col).2) ∧
  cell (board (make_move g row col).2) row col =
    Player_value (current_player g) ∧
  (∀ row' col', 0 ≤ row' < 3 → 0 ≤ col' < 3 → (row', col') ≠ (row, col) →
     cell (board (make_move g row col).2) row' col' =
     cell (board g) row' col') ∧
  move_history (make_move g row col).2 =
    move_history g ++ [(row, col, current_player g)].
Proof.
  intros Hwf Hvalid.
  destruct (make_move_flags g row col Hvalid)
    as (reward & g' & -> & Hb & Hh & _).
  apply is_valid_move_true in Hvalid as (_ & [Hr Hc] & _).
  cbn [fst snd]. rewrite Hb, Hh.
  split; [done|]. split; [|split; [|split; [|done]]].
  - apply set_cell_wf; [done|]. destruct (current_player g); cbn; lia.
  - rewrite cell_set_cell by done. by rewrite decide_True.
  - intros row' col' Hr' Hc' Hne. rewrite cell_set_cell by done.
    rewrite decide_False; [done|]. intros [-> ->]. done.
Qed.

Lemma make_move_places_mark_witness :
  (make_move new_game 1 1).1.1 = true ∧
  wf_board (board (make_move new_game 1 1).2) ∧
  cell (board (make_move new_game 1 1).2) 1 1 =
    Player_value (current_player new_game) ∧
  (∀ row' col', 0 ≤ row' < 3 → 0 ≤ col' < 3 → (row', col') ≠ (1, 1) →
     cell (board (make_move new_game 1 1).2) row' col' =
     cell (board new_game) row' col') ∧
  move_history (make_move new_game 1 1).2 =
    move_history new_game ++ [(1, 1, current_player new_game)].
Proof.
  apply (make_move_places_mark new_game 1 1).
  - apply (B9_wf_board 0 0 0 0 0 0 0 0 0); lia.
  - vm_compute. reflexivity.
Defined.

(** X2: the reward [make_move] returns for a legal move in a reachable
    game tells the outcome from X's side, whoever moved: 1 exactly when
    the new grid has a line of X, -1 exactly when it has a line of O, 0
    exactly when it is full without a line, [None] exactly when it is
    not terminal.  The turn passes to the other role exactly when the
    game continues, and the move never completes a line of the
    opponent. *)
Theorem make_move_reward g row col :
  reachable g → is_valid_move g row col = true →
  let reward := (make_move g row col).1.2 in
  let g' := (make_move g row col).2 in
  (reward = Some 1 ↔ has_line (board g') 1) ∧
  (reward = Some (-1) ↔ has_line (board g') (-1)) ∧
  (reward = Some 0 ↔
     board_full (board g') ∧
     ¬ has_line (board g') 1 ∧ ¬ has_line (board g') (-1)) ∧
  (reward = None ↔ ¬ terminal_board (board g')) ∧
  (game_over g' = false ↔ reward = None) ∧
  (current_player g' =
     if game_over g' then current_player g
     else other_player (current_player g)) ∧
  ¬ has_line (board g')
      (Player_value (other_player (current_player g))).
Proof.
  intros Hg Hvalid reward g'. subst reward g'.
  pose proof (reachable_consistent g Hg) as Cg.
  destruct (make_move_consistent g row col Cg Hvalid)
    as [((Hwf & Htot & HlX & HlO) & Hover & HwX & HwO & HwE & _) Hb].
  destruct (make_move_flags g row col Hvalid)
    as (reward & g' & E & _ & _ & Hcases).
  rewrite E in *. cbn [fst snd] in *.
  assert (¬ (has_line (board g') 1 ∧ has_line (board g') (-1))) as Hexcl
    by (intros [H1 H2]; specialize (HlX H1); specialize (HlO H2); lia).
  assert (¬ has_line (board g')
            (Player_value (other_player (current_player g)))) as Hopp.
  { apply is_valid_move_true in Hvalid as (Hgo & [Hr Hc] & Hz).
    destruct Cg as (Hlegal & Hov & _ & _ & _ & Hcur).
    assert (¬ terminal_board (board g)) as Hnt
      by (rewrite <- Hov, Hgo; done).
    destruct (set_cell_legal (board g) row col Hlegal Hnt Hr Hc Hz)
      as [_ Htot'].
    rewrite <- Hb in Htot'. rewrite (Hcur Hgo).
    destruct Hlegal as (_ & Ht & _).
    revert Htot'. unfold mover, other_player.
    repeat case_decide; try done; cbn; intros Htot' Hl.
    - specialize (HlO Hl). lia.
    - specialize (HlX Hl). lia. }
  assert (terminal_board (board g') ↔
          has_line (board g') 1 ∨ has_line (board g') (-1) ∨
          board_full (board g')) as Hterm by done.
  destruct Hcases as [(-> & Ho & Hw & Hc)|[(-> & Ho & Hw & Hc)|
         [(-> & Ho & Hw & Hc)|(-> & Ho & Hw & Hc)]]];
    rewrite Ho, Hc.
  - assert (¬ terminal_board (board g')) as Hnt
      by (rewrite <- Hover, Ho; done).
    clear -Hnt Hterm Hopp.
    repeat split; intros; first [done | tauto].
  - assert (terminal_board (board g')) as Ht by (by apply Hover).
    assert (¬ has_line (board g') 1) as N1
      by (rewrite <- HwX, Hw; done).
    assert (¬ has_line (board g') (-1)) as N2
      by (rewrite <- HwO, Hw; done).
    clear -Ht N1 N2 Hterm Hopp.
    repeat split; intros; first [done | tauto].
  - assert (terminal_board (board g')) as Ht by (by apply Hover).
    assert (has_line (board g') 1) as P1 by (by apply HwX).
    assert (¬ has_line (board g') (-1)) as N2 by tauto.
    clear -Ht P1 N2 Hterm Hopp.
    repeat split; intros; first [done | tauto].
  - assert (terminal_board (board g')) as Ht by (by apply Hover).
    assert (has_line (board g') (-1)) as P2 by (by apply HwO).
    assert (¬ has_line (board g') 1) as N1 by tauto.
    clear -Ht P2 N1 Hterm Hopp.
    repeat split; intros; first [done | tauto].
Qed.

Lemma make_move_reward_witness :
  let reward := (make_move new_game 0 0).1.2 in
  let g' := (make_move new_game 0 0).2 in
  (reward = Some 1 ↔ has_line (board g') 1) ∧
  (reward = Some (-1) ↔ has_line (board g') (-1)) ∧
  (reward = Some 0 ↔
     board_full (board g') ∧
     ¬ has_line (board g') 1 ∧ ¬ has_line (board g') (-1)) ∧
  (reward = None ↔ ¬ terminal_board (board g')) ∧
  (game_over g' = false ↔ reward = None) ∧
  (current_player g' =
     if game_over g' then current_player new_game
     else other_player (current_player new_game)) ∧
  ¬ has_line (board g')
      (Player_value (other_player (current_player new_game))).
Proof.
  apply (make_move_reward new_game 0 0).
  - apply reachable_new.
  - vm_compute. reflexivity.
Defined.

(** When a reachable game is over, the player recorded as current is the
    one who made the last move. *)
Lemma reachable_last_mover g :
  reachable g → game_over g = true →
  current_player g = if decide (total (board g) = 1) then X else O.
Proof.
  induction 1 as [|g row col Hg IH Hvalid]; [done|].
  intros Hover.
  pose proof (reachable_consistent g Hg) as Cg.
  destruct (make_move_consistent g row col Cg Hvalid) as [_ Hb].
  destruct (make_move_flags g row col Hvalid)
    as (reward & g' & E & _ & _ & Hcases).
  rewrite E in *. cbn [snd] in *.
  apply is_valid_move_true in Hvalid as (Hgo & [Hr Hc] & Hz).
  destruct Cg as (Hlegal & Hov & _ & _ & _ & Hcur).
  assert (¬ terminal_board (board g)) as Hnt by (rewrite <- Hov, Hgo; done).
  destruct (set_cell_legal (board g) row col Hlegal Hnt Hr Hc Hz)
    as [_ Htot'].
  rewrite <- Hb in Htot'.
  assert (current_player g' = current_player g) as ->
    by (destruct Hcases as [(_ & Ho & _)|[(_ & _ & _ & Hc')|
          [(_ & _ & _ & Hc')|(_ & _ & _ & Hc')]]]; congruence).
  rewrite (Hcur Hgo). destruct Hlegal as (_ & Ht & _).
  revert Htot'. unfold mover. repeat case_decide; cbn; try done; lia.
Qed.

(** X3: every game reached by legal moves keeps the state invariant: a
    3x3 grid over -1, 0, 1 on which X has as many marks as O or one
    more; never a line for both; [game_over] set exactly on terminal
    grids; [winner] X or O exactly with that role's line and [None]
    otherwise; while the game runs X is to move exactly when the marks
    are level; and the winner of a finished game is the role recorded as
    current player. *)
Theorem reachable_invariant g :
  reachable g →
  wf_board (board g) ∧
  (total (board g) = 0 ∨ total (board g) = 1) ∧
  ¬ (has_line (board g) 1 ∧ has_line (board g) (-1)) ∧
  (game_over g = true ↔ terminal_board (board g)) ∧
  (winner g = Some X ↔ has_line (board g) 1) ∧
  (winner g = Some O ↔ has_line (board g) (-1)) ∧
  (winner g = None ↔
     ¬ has_line (board g) 1 ∧ ¬ has_line (board g) (-1)) ∧
  (game_over g = false →
     current_player g = if decide (total (board g) = 0) then X else O) ∧
  (∀ w, winner g = Some w → game_over g = true ∧ current_player g = w).
Proof.
  intros Hg.
  pose proof (reachable_last_mover g Hg) as Hlast.
  destruct (reachable_consistent g Hg)
    as ((Hwf & Htot & HlX & HlO) & Hover & HwX & HwO & HwE & Hcur).
  split; [done|]. split; [done|].
  split; [intros [H1 H2]; specialize (HlX H1); specialize (HlO H2); lia|].
  split; [done|]. split; [done|]. split; [done|].
  split; [|split; [done|]].
  - rewrite <- HwX, <- HwO. destruct (winner g) as [[| |]|]; naive_solver.
  - intros w Hw.
    assert (terminal_board (board g)) as Ht.
    { destruct w; [left; by apply HwX|right; left; by apply HwO|done]. }
    apply Hover in Ht. split; [done|]. rewrite (Hlast Ht).
    destruct w; [| |done].
    + apply HwX, HlX in Hw. by rewrite decide_True.
    + apply HwO, HlO in Hw. rewrite decide_False; [done|lia].
Qed.

Lemma reachable_invariant_witness :
  wf_board (board x_wins_early) ∧
  (total (board x_wins_early) = 0 ∨ total (board x_wins_early) = 1) ∧
  ¬ (has_line (board x_wins_early) 1 ∧ has_line (board x_wins_early) (-1)) ∧
  (game_over x_wins_early = true ↔ terminal_board (board x_wins_early)) ∧
  (winner x_wins_early = Some X ↔ has_line (board x_wins_early) 1) ∧
  (winner x_wins_early = Some O ↔ has_line (board x_wins_early) (-1)) ∧
  (winner x_wins_early = None ↔
     ¬ has_line (board x_wins_early) 1 ∧
     ¬ has_line (board x_wins_early) (-1)) ∧
  (game_over x_wins_early = false →
     current_player x_wins_early =
       if decide (total (board x_wins_early) = 0) then X else O) ∧
  (∀ w, winner x_wins_early = Some w →
     game_over x_wins_early = true ∧ current_player x_wins_early = w).
Proof.
  apply (reachable_invariant x_wins_early).
  apply reachable_plays, reachable_new.
Defined.

(** X4: [is_valid_move] accepts a coordinate pair exactly when the game
    is not over and [get_valid_moves] lists the pair; on a finished game
    it accepts nothing, whatever [get_valid_moves] lists. *)
Theorem is_valid_move_iff g row col :
  is_valid_move g row col = true ↔
  game_over g = false ∧ (row, col) ∈ get_valid_moves g.
Proof.
  rewrite is_valid_move_true, elem_of_get_valid_moves. tauto.
Qed.

(** X5: for games reached by legal moves the grid-only [__eq__] is a
    sound identity: equal objects have the same board, the same player
    to move, the same flags and winner, offer the same moves, and stay
    equal after the same move. *)
Theorem eq_states_agree g1 g2 :
  reachable g1 → reachable g2 → TicTacToe_eq g1 g2 = true →
  board g1 = board g2 ∧
  current_player g1 = current_player g2 ∧
  game_over g1 = game_over g2 ∧
  winner g1 = winner g2 ∧
  get_valid_moves g1 = get_valid_moves g2 ∧
  ∀ mv, TicTacToe_eq (play g1 mv) (play g2 mv) = true.
Proof.
  intros H1 H2 Heq. apply bool_decide_eq_true in Heq.
  pose proof (reachable_same_board g1 g2 H1 H2 Heq) as Hb.
  destruct (reachable_determined g1 g2 H1 H2 Heq) as (Ho & Hw & Hm & Hp).
  split; [done|]. split; [|split; [done|split; [done|split; [done|]]]].
  - destruct (game_over g1) eqn:Hover1; symmetry in Ho.
    + rewrite (reachable_last_mover g1 H1 Hover1),
        (reachable_last_mover g2 H2 Ho). by rewrite Hb.
    + destruct (reachable_consistent g1 H1) as (_ & _ & _ & _ & _ & Hc1).
      destruct (reachable_consistent g2 H2) as (_ & _ & _ & _ & _ & Hc2).
      by rewrite (Hc1 Hover1), (Hc2 Ho), Hb.
  - intros mv. apply bool_decide_eq_true. apply Hp.
Qed.

Lemma eq_states_agree_witness :
  let g1 := foldl play new_game [(0,0); (1,1); (0,1)] in
  let g2 := foldl play new_game [(0,1); (1,1); (0,0)] in
  board g1 = board g2 ∧
  current_player g1 = current_player g2 ∧
  game_over g1 = game_over g2 ∧
  winner g1 = winner g2 ∧
  get_valid_moves g1 = get_valid_moves g2 ∧
  ∀ mv, TicTacToe_eq (play g1 mv) (play g2 mv) = true.
Proof.
  apply eq_states_agree.
  - apply reachable_plays, reachable_new.
  - apply reachable_plays, reachable_new.
  - vm_compute. reflexivity.
Defined.

Lemma filter_drop_one {A} `{EqDecision A} (P P' : A → Prop)
    `{∀ x, Decision (P x)} `{∀ x, Decision (P' x)} (x0 : A) (l : list A) :
  (∀ y, y ∈ l → y ≠ x0 → (P' y ↔ P y)) → ¬ P' x0 →
  filter P' l = filter (λ y, y ≠ x0) (filter P l).
Proof.
  intros Hagree Hx0. induction l as [|y l IH]; [done|].
  rewrite !filter_cons.
  assert (filter P' l = filter (λ y, y ≠ x0) (filter P l)) as IH'.
  { apply IH. intros z Hz. apply Hagree. by right. }
  destruct (decide (y = x0)) as [->|Hne].
  - rewrite (decide_False (P := P' x0)) by done.
    destruct (decide (P x0)); [|done].
    rewrite filter_cons. rewrite decide_False; [done|]. by intros ?.
  - pose proof (Hagree y ltac:(left) Hne) as Hy.
    destruct (decide (P y)) as [HP|HP].
    + rewrite decide_True by tauto. rewrite filter_cons.
      rewrite decide_True by done. by f_equal.
    + rewrite decide_False by tauto. done.
Qed.

Lemma length_filter_drop_one {A} `{EqDecision A} (x0 : A) (l : list A) :
  NoDup l → x0 ∈ l →
  S (length (filter (λ y, y ≠ x0) l)) = length l.
Proof.
  induction 1 as [|y l Hy Hnd IH]; intros Hin;
    [by apply elem_of_nil in Hin|].
  rewrite filter_cons. destruct (decide (y = x0)) as [->|Hne].
  - rewrite decide_False by (by intros ?). cbn. f_equal.
    clear IH Hnd Hin. induction l as [|z l IHl]; [done|].
    apply not_elem_of_cons in Hy as [Hz Hy].
    rewrite filter_cons, decide_True by congruence. cbn. f_equal.
    by apply IHl.
  - rewrite decide_True by done. cbn. f_equal. apply IH.
    apply elem_of_cons in Hin as [->|?]; done.
Qed.

Lemma NoDup_get_valid_moves g : NoDup (get_valid_moves g).
Proof.
  rewrite get_valid_moves_filter. apply NoDup_filter.
  apply (bool_decide_unpack _). vm_compute. exact I.
Qed.

Lemma valid_moves_after_move g row col :
  wf_board (board g) → current_player g ≠ EMPTY →
  is_valid_move g row col = true →
  get_valid_moves (make_move g row col).2 =
    filter (λ rc, rc ≠ (row, col)) (get_valid_moves g) ∧
  S (length (get_valid_moves (make_move g row col).2)) =
    length (get_valid_moves g).
Proof.
  intros Hwf Hcp Hvalid.
  destruct (make_move_flags g row col Hvalid)
    as (reward & g' & -> & Hb & _ & _).
  cbn [snd].
  assert ((row, col) ∈ get_valid_moves g) as Hin
    by (by apply is_valid_move_iff in Hvalid as [_ ?]).
  apply is_valid_move_true in Hvalid as (_ & [Hr Hc] & _).
  assert (get_valid_moves g' =
          filter (λ rc, rc ≠ (row, col)) (get_valid_moves g)) as Heq.
  { rewrite !get_valid_moves_filter, Hb.
    apply filter_drop_one.
    - intros [row' col'] [Hr' Hc']%elem_of_all_cells Hne. cbn [fst snd].
      rewrite cell_set_cell by done.
      rewrite decide_False; [done|]. intros [-> ->]. done.
    - cbn [fst snd]. rewrite cell_set_cell by done.
      rewrite decide_True by done. by destruct (current_player g). }
  split; [done|]. rewrite Heq.
  apply length_filter_drop_one; [apply NoDup_get_valid_moves|done].
Qed.

(** X6: after a valid move by X or O the legal moves are the previous
    legal moves without the cell just played, in the same order; there
    is exactly one fewer. *)
Theorem get_valid_moves_after_move g row col :
  wf_board (board g) → current_player g ≠ EMPTY →
  is_valid_move g row col = true →
  get_valid_moves (make_move g row col).2 =
    filter (λ rc, rc ≠ (row, col)) (get_valid_moves g) ∧
  S (length (get_valid_moves (make_move g row col).2)) =
    length (get_valid_moves g).
Proof.
  intros Hwf Hcp Hvalid.
  destruct (valid_moves_after_move g row col Hwf Hcp Hvalid) as [Heq Hlen].
  by split.
Qed.

Lemma get_valid_moves_after_move_witness :
  get_valid_moves (make_move one_move_left 2 2).2 =
    filter (λ rc, rc ≠ (2, 2)) (get_valid_moves one_move_left) ∧
  S (length (get_valid_moves (make_move one_move_left 2 2).2)) =
    length (get_valid_moves one_move_left).
Proof.
  apply get_valid_moves_after_move.
  - apply (B9_wf_board 1 (-1) 1 1 (-1) (-1) (-1) 1 0); lia.
  - vm_compute. discriminate.
  - vm_compute. reflexivity.
Defined.

Lemma reachable_mover g :
  reachable g → game_over g = false → current_player g ≠ EMPTY.
Proof.
  intros (_ & _ & _ & _ & _ & Hcur)%reachable_consistent Hgo.
  rewrite (Hcur Hgo). unfold mover. by case_decide.
Qed.

Lemma reachable_history_count g :
  reachable g →
  (length (move_history g) + length (get_valid_moves g) = 9)%nat.
Proof.
  induction 1 as [|g row col Hg IH Hvalid]; [done|].
  pose proof (reachable_wf g Hg) as Hwf.
  assert (current_player g ≠ EMPTY) as Hcp.
  { apply reachable_mover; [done|].
    by apply is_valid_move_true in Hvalid as (? & _). }
  destruct (valid_moves_after_move g row col Hwf Hcp Hvalid) as [_ Hlen].
  destruct (make_move_flags g row col Hvalid)
    as (reward & g' & E & _ & Hh & _).
  rewrite E in *. cbn [snd] in *. rewrite Hh, length_app. cbn. lia.
Qed.

(** X7: in every game reached by legal moves the number of moves in
    [move_history] plus the number of legal moves listed is nine; so no
    game has more than nine moves, and a game with nine moves is over. *)
Theorem reachable_history g :
  reachable g →
  (length (move_history g) + length (get_valid_moves g) = 9)%nat ∧
  (length (move_history g) ≤ 9)%nat ∧
  (length (move_history g) = 9%nat → game_over g = true).
Proof.
  intros Hg. pose proof (reachable_history_count g Hg) as Hcount.
  split; [done|]. split; [lia|].
  intros Hnine.
  destruct (reachable_consistent g Hg) as (_ & Hover & _).
  apply Hover. right. right. apply get_valid_moves_nil.
  apply length_zero_iff_nil. lia.
Qed.

Lemma reachable_history_witness :
  (length (move_history x_wins_early) +
   length (get_valid_moves x_wins_early) = 9)%nat ∧
  (length (move_history x_wins_early) ≤ 9)%nat ∧
  (length (move_history x_wins_early) = 9%nat →
   game_over x_wins_early = true).
Proof.
  apply (reachable_history x_wins_early).
  apply reachable_plays, reachable_new.
Defined.

(** * Further properties of the value table and the agent *)

Lemma update_value_table (state state_prime : TicTacToe) (alpha : Q)
    (value : Table) :
  (update_value state state_prime alpha value).2 = value ∨
  ∃ v v',
    value !! get_state_hash state = Some v ∧
    value !! get_state_hash state_prime = Some v' ∧
    update_value state state_prime alpha value =
      (Ok tt, <[get_state_hash state := (fl (v + fl (alpha * fl (v' - v))))%Q]> value).
Proof.
  destruct (value !! get_state_hash state) as [v|] eqn:Hs;
    [destruct (value !! get_state_hash state_prime) as [v'|] eqn:Hs'|].
  - right. exists v, v'. split; [done|]. split; [done|].
    by apply update_value_present.
  - left. unfold update_value, mbind, M_bind, dict_get, dict_set.
    rewrite Hs. cbn beta iota. by rewrite Hs'.
  - left. unfold update_value, mbind, M_bind, dict_get, dict_set.
    by rewrite Hs.
Qed.

Lemma update_value_missing (state state_prime : TicTacToe) (alpha : Q)
    (value : Table) :
  value !! get_state_hash state = None ∨
  value !! get_state_hash state_prime = None →
  update_value state state_prime alpha value = (Raise KeyError, value).
Proof.
  intros H. unfold update_value, mbind, M_bind, dict_get, dict_set.
  destruct (value !! get_state_hash state) as [v|] eqn:Hs; [|done].
  destruct H as [H|H]; [done|]. cbn beta iota. by rewrite H.
Qed.

Lemma update_value_dom (state state_prime : TicTacToe) (alpha : Q)
    (value : Table) :
  dom (update_value state state_prime alpha value).2 = dom value.
Proof.
  destruct (update_value_table state state_prime alpha value)
    as [->|(v & v' & Hs & _ & ->)]; [done|].
  cbn. apply dom_insert_lookup_L. by eexists.
Qed.

Lemma best_loop_table game player ms : ∀ acc (value : Table),
  (best_loop game player ms acc value).2 = value.
Proof.
  induction ms as [|m ms IH]; intros acc value; [done|].
  cbn [best_loop]. unfold mbind at 1, M_bind at 1.
  unfold best_step, get_value, dict_get, mbind, M_bind.
  destruct (value !! _) as [v|]; [|done]. cbn beta iota.
  destruct (decide (player = X)).
  - destruct (Qlt_le_dec _ _); cbn; apply IH.
  - destruct (Qlt_le_dec _ _); cbn; apply IH.
Qed.

Lemma best_loop_member game player ms : ∀ acc (value : Table) acc' t,
  best_loop game player ms acc value = (Ok acc', t) →
  acc' = acc ∨ ∃ m, m ∈ ms ∧ acc'.1 = Some m.
Proof.
  induction ms as [|m ms IH]; intros acc value acc' t Hrun.
  - left. cbn in Hrun. by inversion Hrun.
  - cbn [best_loop] in Hrun. unfold mbind at 1, M_bind at 1 in Hrun.
    unfold best_step, get_value, dict_get, mbind, M_bind in Hrun.
    destruct (value !! _) as [v|]; [|done]. cbn beta iota in Hrun.
    assert (∀ acc1, best_loop game player ms acc1 value = (Ok acc', t) →
              (acc1 = acc ∨ acc1 = (Some m, v)) →
              acc' = acc ∨ ∃ m0, m0 ∈ m :: ms ∧ acc'.1 = Some m0) as Hstep.
    { intros acc1 Hrun1 Hacc1.
      destruct (IH acc1 value acc' t Hrun1) as [->|(m0 & Hm0 & Hacc')].
      - destruct Hacc1 as [-> | ->]; [by left|].
        right. exists m. split; [left|done].
      - right. exists m0. split; [by right|done]. }
    destruct (decide (player = X)).
    + destruct (Qlt_le_dec _ _); cbn in Hrun;
        (eapply Hstep; [exact Hrun|tauto]).
    + destruct (Qlt_le_dec _ _); cbn in Hrun;
        (eapply Hstep; [exact Hrun|tauto]).
Qed.

(** [get_move] after its selection loop: explore or exploit, then the
    common tail. *)
Lemma get_move_cases game player rnd rnd_index self :
  let moves := get_valid_moves game in
  get_move game player rnd rnd_index self =
  match (best_loop game player moves (None, best_init player)
           (value_function self)).1 with
  | Ok best =>
      if Qlt_le_dec rnd (exploration self) then
        if decide (length moves = 0%nat) then (Raise ValueError, self)
        else after_choice game player
               (moves !! (rnd_index mod length moves)%nat) (decayed self)
      else after_choice game player best.1 (decayed self)
  | Raise e => (Raise e, self)
  | OutOfFuel => (OutOfFuel, self)
  end.
Proof.
  intros moves. unfold get_move, after_choice. fold moves.
  unfold mbind at 1, M_bind at 1. unfold on_table at 1.
  pose proof (best_loop_table game player moves (None, best_init player)
                (value_function self)) as Ht.
  destruct (best_loop game player moves _ _) as [r t]. cbn in Ht. subst t.
  destruct self as [value eps dec prev al]. cbn [value_function fst].
  destruct r as [best|e|]; [|done|done].
  unfold mbind at 1, M_bind at 1, get_st at 1. cbn beta iota.
  cbn [exploration].
  destruct (Qlt_le_dec rnd eps) as [Hlt|Hle].
  - destruct (decide (length moves = 0%nat)); [done|].
    unfold mbind at 1, M_bind at 1, mret at 1, M_ret at 1. cbn beta iota.
    unfold mbind at 1, M_bind at 1, decay_exploration at 1. cbn beta iota.
    reflexivity.
  - unfold mbind at 1, M_bind at 1, mret at 1, M_ret at 1. cbn beta iota.
    unfold mbind at 1, M_bind at 1, decay_exploration at 1. cbn beta iota.
    reflexivity.
Qed.

(** The common tail of [get_move], case by case. *)
Lemma after_choice_cases game player chosen_move self :
  after_choice game player chosen_move self =
  match chosen_move with
  | None => (Raise TypeError, self)
  | Some mv =>
      match previous_state self !! player with
      | None => (Raise KeyError, self)
      | Some prev =>
          let new_game := play (copy game) mv in
          let r := update_value prev new_game (alpha self)
                     (value_function self) in
          match r.1 with
          | Ok _ =>
              (Ok mv,
               {| value_function := r.2;
                  exploration := exploration self;
                  exploration_decay := exploration_decay self;
                  previous_state :=
                    <[player := new_game]> (previous_state self);
                  alpha := alpha self |})
          | Raise e => (Raise e, with_table self r.2)
          | OutOfFuel => (OutOfFuel, with_table self r.2)
          end
      end
  end.
Proof.
  unfold after_choice. destruct chosen_move as [mv|]; [|done].
  unfold subscript, mbind, M_bind, mret, M_ret, get_previous_state, get_st,
    on_table, set_previous_state, with_table.
  destruct (previous_state self !! player) as [prev|]; [|done].
  cbn beta iota zeta.
  destruct (update_value _ _ _ _) as [[[]|e|] t]; reflexivity.
Qed.

Lemma lost_game_table game player self :
  value_function (lost_game game player self).2 = value_function self ∨
  ∃ prev,
    previous_state self !! player = Some prev ∧
    value_function (lost_game game player self).2 =
      (update_value prev game (alpha self) (value_function self)).2.
Proof.
  unfold lost_game, mbind, M_bind, get_previous_state, get_st, on_table.
  destruct (previous_state self !! player) as [prev|]; [|by left].
  right. exists prev. split; [done|]. cbn beta iota zeta.
  by destruct (update_value _ _ _ _).
Qed.

Lemma get_move_table game player rnd rnd_index self :
  value_function (get_move game player rnd rnd_index self).2 =
    value_function self ∨
  ∃ prev mv,
    previous_state self !! player = Some prev ∧
    value_function (get_move game player rnd rnd_index self).2 =
      (update_value prev (play (copy game) mv) (alpha self)
         (value_function self)).2.
Proof.
  rewrite get_move_cases. cbn zeta.
  assert (∀ chosen,
    value_function (after_choice game player chosen (decayed self)).2 =
      value_function self ∨
    ∃ prev mv,
      previous_state self !! player = Some prev ∧
      value_function (after_choice game player chosen (decayed self)).2 =
        (update_value prev (play (copy game) mv) (alpha self)
           (value_function self)).2) as Htail.
  { intros chosen. rewrite after_choice_cases.
    destruct chosen as [mv|]; [|by left].
    cbn [previous_state decayed].
    destruct (previous_state self !! player) as [prev|]; [|by left].
    right. exists prev, mv. split; [done|].
    cbn zeta. cbn [alpha value_function decayed].
    by destruct (update_value _ _ _ _) as [[[]|e|] t]. }
  destruct (best_loop _ _ _ _ _).1 as [best|e|]; [|by left..].
  destruct (Qlt_le_dec _ _); [|apply Htail].
  destruct (decide _); [by left|apply Htail].
Qed.

(** X8: the key set of the table is fixed: [update_value], [lost_game]
    and [get_move] never add or remove a key, whether they return or
    raise. *)
Theorem table_keys_fixed :
  (∀ (state state_prime : TicTacToe) (alpha : Q) (value : Table),
     dom (update_value state state_prime alpha value).2 = dom value) ∧
  (∀ game player self,
     dom (value_function (lost_game game player self).2) =
     dom (value_function self)) ∧
  (∀ game player rnd rnd_index self,
     dom (value_function (get_move game player rnd rnd_index self).2) =
     dom (value_function self)).
Proof.
  split; [apply update_value_dom|]. split.
  - intros game player self.
    destruct (lost_game_table game player self) as [->|(prev & _ & ->)];
      [done|apply update_value_dom].
  - intros game player rnd rnd_index self.
    destruct (get_move_table game player rnd rnd_index self)
      as [->|(prev & mv & _ & ->)]; [done|apply update_value_dom].
Qed.

(** X10: after a successful [update_value] on [state], [get_value] of
    [state] returns what the update computed, [v + alpha * (v' - v)]
    with each of its three operations rounded, and [get_value] of any
    state with another grid returns what it returned before. *)
Theorem update_then_get (state state_prime other : TicTacToe) (alpha : Q)
    (value : Table) (v v' : Q) :
  value !! get_state_hash state = Some v →
  value !! get_state_hash state_prime = Some v' →
  get_value state (update_value state state_prime alpha value).2 =
    (Ok (fl (v + fl (alpha * fl (v' - v))))%Q,
     (update_value state state_prime alpha value).2) ∧
  (get_state_hash other ≠ get_state_hash state →
   (get_value other (update_value state state_prime alpha value).2).1 =
   (get_value other value).1).
Proof.
  intros Hs Hs'. rewrite (update_value_present _ _ _ _ v v') by done.
  cbn [snd]. unfold get_value, dict_get. split.
  - by rewrite lookup_insert_eq.
  - intros Hne. rewrite lookup_insert_ne by done.
    by destruct (value !! get_state_hash other).
Qed.

Lemma get_move_ok game player rnd rnd_index self mv :
  (get_move game player rnd rnd_index self).1 = Ok mv →
  mv ∈ get_valid_moves game ∧
  ∃ prev v v',
    previous_state self !! player = Some prev ∧
    value_function self !! get_state_hash prev = Some v ∧
    value_function self !! get_state_hash (play (copy game) mv) = Some v' ∧
    (get_move game player rnd rnd_index self).2 =
      {| value_function :=
           <[get_state_hash prev := (fl (v + fl (alpha self * fl (v' - v))))%Q]>
             (value_function self);
         exploration := (fl (exploration self * exploration_decay self))%Q;
         exploration_decay := exploration_decay self;
         previous_state :=
           <[player := play (copy game) mv]> (previous_state self);
         alpha := alpha self |}.
Proof.
  rewrite get_move_cases. cbn zeta.
  assert (∀ chosen,
    (after_choice game player chosen (decayed self)).1 = Ok mv →
    chosen = Some mv ∧
    ∃ prev v v',
      previous_state self !! player = Some prev ∧
      value_function self !! get_state_hash prev = Some v ∧
      value_function self !! get_state_hash (play (copy game) mv) = Some v' ∧
      (after_choice game player chosen (decayed self)).2 =
        {| value_function :=
             <[get_state_hash prev := (fl (v + fl (alpha self * fl (v' - v))))%Q]>
               (value_function self);
           exploration := (fl (exploration self * exploration_decay self))%Q;
           exploration_decay := exploration_decay self;
           previous_state :=
             <[player := play (copy game) mv]> (previous_state self);
           alpha := alpha self |}) as Htail.
  { intros chosen. rewrite after_choice_cases.
    destruct chosen as [mv0|]; [|done].
    cbn [previous_state decayed].
    destruct (previous_state self !! player) as [prev|]; [|done].
    cbn zeta. cbn [alpha value_function decayed].
    destruct (update_value_table prev (play (copy game) mv0) (alpha self)
                (value_function self)) as [Hsame|(v & v' & Hs & Hs' & E)].
    - destruct (value_function self !! get_state_hash prev) as [v|] eqn:Hs;
        [destruct (value_function self
                     !! get_state_hash (play (copy game) mv0))
           as [v'|] eqn:Hs'|].
      + rewrite (update_value_present _ _ _ _ v v') by done.
        cbn. intros [= ->]. split; [done|]. by exists prev, v, v'.
      + rewrite update_value_missing by tauto. done.
      + rewrite update_value_missing by tauto. done.
    - rewrite E. cbn. intros [= ->]. split; [done|]. by exists prev, v, v'. }
  destruct (best_loop _ _ _ _ _) as [r t] eqn:Hloop. cbn [fst].
  destruct r as [best|e|]; [|done|done].
  destruct (Qlt_le_dec _ _).
  - destruct (decide _); [done|]. intros Hok.
    destruct (Htail _ Hok) as [Hch Hrest]. split; [|done].
    by apply list_elem_of_lookup_2 in Hch.
  - intros Hok. destruct (Htail _ Hok) as [Hch Hrest]. split; [|done].
    destruct (best_loop_member _ _ _ _ _ _ _ Hloop)
      as [->|(m & Hm & Hbest)]; [done|].
    rewrite Hch in Hbest. by inversion Hbest; subst m.
Qed.

(** X11: a move [get_move] returns is one of the legal moves of the game
    it was asked about, whether it explored or exploited. *)
Theorem get_move_returns_legal_move game player rnd rnd_index self mv :
  (get_move game player rnd rnd_index self).1 = Ok mv →
  mv ∈ get_valid_moves game.
Proof. intros Hok. by destruct (get_move_ok _ _ _ _ _ _ Hok) as [? _]. Qed.

(** X12: when [get_move] returns a move, the exploration rate is the
    rounded product of the old rate and the decay factor, the role's
    cursor is the state after the move, every other cursor, the decay
    factor and the learning rate are unchanged, and the table differs
    only at the old cursor, whose value [v] became
    [v + alpha * (v' - v)], each operation rounded, with [v'] the value
    of the state after the move; both states were in the table. *)
Theorem get_move_effects game player rnd rnd_index self mv :
  (get_move game player rnd rnd_index self).1 = Ok mv →
  ∃ prev v v',
    previous_state self !! player = Some prev ∧
    value_function self !! get_state_hash prev = Some v ∧
    value_function self !! get_state_hash (play (copy game) mv) = Some v' ∧
    (get_move game player rnd rnd_index self).2 =
      {| value_function :=
           <[get_state_hash prev := (fl (v + fl (alpha self * fl (v' - v))))%Q]>
             (value_function self);
         exploration := (fl (exploration self * exploration_decay self))%Q;
         exploration_decay := exploration_decay self;
         previous_state :=
           <[player := play (copy game) mv]> (previous_state self);
         alpha := alpha self |}.
Proof. intros Hok. by destruct (get_move_ok _ _ _ _ _ _ Hok) as [_ ?]. Qed.

(** X13: on a game without an empty cell [get_move] always raises: when
    it explores, [randrange(0, 0)] raises [ValueError] and the agent is
    untouched; otherwise the rate is decayed and subscripting the
    missing best move raises [TypeError]. *)
Theorem get_move_no_moves game player rnd rnd_index self :
  get_valid_moves game = [] →
  get_move game player rnd rnd_index self =
  if Qlt_le_dec rnd (exploration self)
  then (Raise ValueError, self)
  else (Raise TypeError, decayed self).
Proof.
  intros Hnil. rewrite get_move_cases. cbn zeta. rewrite Hnil. cbn.
  by destruct (Qlt_le_dec _ _).
Qed.

(** * The agent on a complete table *)







Lemma Agent_init_ok (value : Table) (e d : Q) :
  table_complete value → agent_ok (Agent_init value e d).
Proof.
  intros Hc. split; [done|]. intros p Hp. exists new_game.
  split; [|apply reachable_new]. cbn.
  destruct Hp as [-> | ->]; by vm_compute.
Qed.


(** X15: whatever order the frontier set pops in, the constructor's
    table makes a well-formed agent: the table holds exactly the
    reachable grids and both cursors are the empty board, itself a key
    of the table. *)
Theorem Agent_init_well_formed pick extra (e d : Q) :
  ∃ value,
    ValueFunction_init pick (init_fuel + extra) = Ok value ∧
    agent_ok (Agent_init value e d) ∧
    previous_state (Agent_init value e d) !! X = Some new_game ∧
    previous_state (Agent_init value e d) !! O = Some new_game ∧
    previous_state (Agent_init value e d) !! EMPTY = None ∧
    is_Some (value !! get_state_hash new_game).
Proof.
  destruct (ValueFunction_init_result pick extra) as (value & Hrun & Hinv).
  pose proof (loop_inv_done value Hinv) as Hc.
  exists value. split; [done|]. split; [by apply Agent_init_ok|].
  split; [by vm_compute|]. split; [by vm_compute|]. split; [by vm_compute|].
  apply Hc. exists new_game. split; [apply reachable_new|done].
Qed.




End Rounding.

(** * The properties at concrete inputs

    The instances below take [no_rounding] for the rounding: the numbers
    they compute with are few and small. *)

Lemma update_value_missing_key_witness :
  update_value no_rounding new_game x_wins_early (1 # 10)
    (<[get_state_hash new_game := 0%Q]> ∅) =
  (Raise KeyError, <[get_state_hash new_game := 0%Q]> ∅).
Proof.
  apply (update_value_missing_key no_rounding).
  right. vm_compute. reflexivity.
Defined.



Example three_moves_left_open :
  game_over three_moves_left = false ∧
  current_player three_moves_left = X ∧
  get_valid_moves three_moves_left = [(2,0); (2,1); (2,2)].
Proof. vm_compute. done. Qed.

(** From [three_moves_left] the moves (2,0), (2,1), (2,2) of X lead to
    values 0, 1/2, 1/2 in the table of [tied_agent]: the loop keeps
    (2,1), the first of the two best, and [get_move] returns it. *)
Lemma get_move_selection_witness :
  let game := three_moves_left in
  let self := tied_agent 0 in
  let player := X in
  let moves := get_valid_moves game in
  let val mv := default 0%Q (successor_value (value_function self) game mv) in
  (best_loop game player moves (None, best_init player)
     (value_function self) =
     (Ok (Some (2, 1), (1 # 2)%Q), value_function self) ∧
   (get_move no_rounding game player 0 0 self).1 = Ok (2, 1)) ∧
  (best_init X = (-1)%Q ∧ best_init O = 1%Q) ∧
  (∀ a b, (improves X a b ↔ (b < a)%Q) ∧ (improves O a b ↔ (a < b)%Q)) ∧
  (∀ mv, mv ∈ moves → (make_move (copy game) mv.1 mv.2).1.1 = true) ∧
  ∃ best_move best_value,
    best_loop game player moves (None, best_init player)
      (value_function self) =
      (Ok (best_move, best_value), value_function self) ∧
    match best_move with
    | None =>
        best_value = best_init player ∧
        ∀ m, m ∈ moves → ¬ improves player (val m) (best_init player)
    | Some m =>
        ∃ i, moves !! i = Some m ∧
          best_value = val m ∧
          improves player best_value (best_init player) ∧
          (∀ m', m' ∈ moves → ¬ improves player (val m') best_value) ∧
          (∀ j m', (j < i)%nat → moves !! j = Some m' →
             improves player best_value (val m'))
    end ∧
    ((exploration self <= 0)%Q →
     ∀ mv, (get_move no_rounding game player 0 0 self).1 = Ok mv →
       best_move = Some mv) ∧
    ((exploration self <= 0)%Q →
     (get_move no_rounding game player 0 0 self).1 =
     match best_move with
     | None => Raise TypeError
     | Some m =>
         match previous_state self !! player with
         | None => Raise KeyError
         | Some prev =>
             if decide (is_Some (value_function self !! get_state_hash prev))
             then Ok m
             else Raise KeyError
         end
     end).
Proof.
  split; [split; vm_compute; reflexivity|].
  apply (get_move_selection no_rounding three_moves_left X (tied_agent 0) 0 0).
  - vm_compute. reflexivity.
  - change (get_valid_moves three_moves_left) with [(2,0); (2,1); (2,2)].
    constructor; [|constructor; [|constructor; [|constructor]]].
    + exists 0%Q. vm_compute. reflexivity.
    + exists (1 # 2)%Q. vm_compute. reflexivity.
    + exists (1 # 2)%Q. vm_compute. reflexivity.
Defined.

Lemma get_move_fails_without_improvement_witness :
  get_move no_rounding one_move_left X 0 0 (greedy_agent (-1)) =
  (Raise TypeError, decayed no_rounding (greedy_agent (-1))).
Proof.
  apply (get_move_fails_without_improvement no_rounding).
  - vm_compute. reflexivity.
  - vm_compute. discriminate.
  - reflexivity.
  - by vm_compute.
  - change (get_valid_moves one_move_left) with [(2,2)].
    constructor; [|constructor].
    exists (-1)%Q. split; [vm_compute; reflexivity|reflexivity].
Defined.

Lemma update_then_get_witness :
  get_value new_game
    (update_value no_rounding new_game x_wins_early (1 # 10) two_entries).2 =
    (Ok (no_rounding (0 + no_rounding ((1 # 10) * no_rounding (1 - 0))))%Q,
     (update_value no_rounding new_game x_wins_early (1 # 10)
        two_entries).2) ∧
  (get_state_hash x_wins_early ≠ get_state_hash new_game →
   (get_value x_wins_early
      (update_value no_rounding new_game x_wins_early (1 # 10)
         two_entries).2).1 =
   (get_value x_wins_early two_entries).1).
Proof.
  apply (update_then_get no_rounding new_game x_wins_early x_wins_early
           (1 # 10) two_entries 0 1).
  - vm_compute. reflexivity.
  - vm_compute. reflexivity.
Defined.

Lemma get_move_returns_legal_move_witness :
  (2, 2) ∈ get_valid_moves one_move_left.
Proof.
  apply (get_move_returns_legal_move no_rounding one_move_left X 0 0
           small_agent).
  vm_compute. reflexivity.
Defined.

(** [tied_agent (1 # 2)] draws 3/4 and so exploits: it plays (2,1), its
    rate becomes 99/200 and the value of the empty board, its cursor,
    moves from 0 to 1/20. *)
Lemma get_move_effects_witness :
  let self := tied_agent (1 # 2) in
  let self' := (get_move no_rounding three_moves_left X (3 # 4) 0 self).2 in
  ((exploration self' == 99 # 200)%Q ∧
   from_option (λ q, q == 1 # 20)%Q False
     (value_function self' !! get_state_hash new_game)) ∧
  ∃ prev v v',
    previous_state self !! X = Some prev ∧
    value_function self !! get_state_hash prev = Some v ∧
    value_function self
      !! get_state_hash (play (copy three_moves_left) (2, 1)) = Some v' ∧
    self' =
      {| value_function :=
           <[get_state_hash prev :=
               (no_rounding
                  (v + no_rounding (alpha self * no_rounding (v' - v))))%Q]>
             (value_function self);
         exploration :=
           (no_rounding (exploration self * exploration_decay self))%Q;
         exploration_decay := exploration_decay self;
         previous_state :=
           <[X := play (copy three_moves_left) (2, 1)]>
             (previous_state self);
         alpha := alpha self |}.
Proof.
  split; [split; vm_compute; reflexivity|].
  apply (get_move_effects no_rounding three_moves_left X (3 # 4) 0
           (tied_agent (1 # 2)) (2, 1)).
  vm_compute. reflexivity.
Defined.

Lemma get_move_no_moves_witness :
  get_move no_rounding (play one_move_left (2, 2)) O 0 0 small_agent =
  if Qlt_le_dec 0 (exploration small_agent)
  then (Raise ValueError, small_agent)
  else (Raise TypeError, decayed no_rounding small_agent).
Proof.
  apply (get_move_no_moves no_rounding). vm_compute. reflexivity.
Defined.


